(** * Quantile-based bucket sort ([src/main.py])

    A shallow embedding of [bucket_sort_quantile_based] and of the Python
    primitives it calls, followed by the properties of the specification.

    Layout:
    - [Binary64]: the double-precision operations the function uses
      ([math.sqrt], [int * float], [int / int], [int(float)]);
    - [Py]: exceptions, subscripts, [range], [sorted], [bisect_left];
    - [Pure]: the function as a state-passing function on list values;
    - [Imp]: the same function statement by statement over a store of
      list objects, used for the claims about aliasing and mutation. *)

From Equations Require Import Equations.
From Stdlib Require Import ZArith QArith Qround Qpower Lqa Lia List Bool
  Sorted Permutation.
Import ListNotations.

(* ================================================================== *)
(** * Double-precision arithmetic *)
(* ================================================================== *)

(** A finite double is the rational number it denotes.  Every operation
    is the exact operation on rationals followed by [rnd], rounding to the
    nearest number with a 53-bit significand, ties to even (IEEE 754
    round-to-nearest-even).  The exponent is unbounded: overflow and
    subnormals are not modelled.  The values that occur for a list of at
    most [2^63 - 1] elements are either zero or lie between [2^-64] and
    [2^64], far inside the normal range. *)
Module Binary64.
Open Scope Q_scope.

(** [floor (log2 x)] for [x > 0]. *)
Definition ilog2 (x : Q) : Z :=
  let d := (Z.log2 (Qnum x) - Z.log2 (Zpos (Qden x)))%Z in
  if Qle_bool (2 ^ d) x then d else (d - 1)%Z.

(** Nearest integer, ties to the even one. *)
Definition round_half_even (y : Q) : Z :=
  let k := Qfloor y in
  match Qcompare (y - inject_Z k) (1 # 2) with
  | Lt => k
  | Gt => (k + 1)%Z
  | Eq => if Z.even k then k else (k + 1)%Z
  end.

(** Round a non-negative rational to the nearest double: scale the
    significand into [[2^52, 2^53)], round it to an integer, scale back. *)
Definition rnd (x : Q) : Q :=
  if Qle_bool x 0 then 0
  else let e := (ilog2 x - 52)%Z in
       Qred (inject_Z (round_half_even (x / 2 ^ e)) * 2 ^ e).

(** [math.sqrt]: the correctly rounded square root.  With
    [y = x / 4^e] in [[2^104, 2^106)], the significand is the integer
    nearest to [sqrt y]: it is [k = floor (sqrt y)] or [k + 1] according to
    the side of [(k + 1/2)^2] on which [y] lies. *)
Definition fsqrt (x : Q) : Q :=
  if Qle_bool x 0 then 0
  else let e := (ilog2 x / 2 - 52)%Z in
       let y := x / 2 ^ (2 * e) in
       let k := Z.sqrt (Qfloor y) in
       let h := inject_Z k + (1 # 2) in
       let m := match Qcompare y (h * h) with
                | Lt => k
                | Gt => (k + 1)%Z
                | Eq => if Z.even k then k else (k + 1)%Z
                end in
       Qred (inject_Z m * 2 ^ e).

(** [float(n)], the conversion applied to an [int] operand of a mixed
    operation. *)
Definition float_of_int (n : Z) : Q := rnd (inject_Z n).

(** [a * b] on floats. *)
Definition fmul (a b : Q) : Q := rnd (a * b).

(** [a / b] on ints (true division, correctly rounded). *)
Definition int_true_div (a b : Z) : Q := rnd (inject_Z a / inject_Z b).

(** [int(x)]: truncation toward zero. *)
Definition int_of_float (x : Q) : Z :=
  if Qle_bool 0 x then Qfloor x else Qceiling x.

(** The literal [0.01], i.e. [0x1.47ae147ae147bp-7]. *)
Definition float_0_01 : Q := 5764607523034235 # 576460752303423488.

(** The unit roundoff [2^-53]. *)
Definition eps : Q := 1 # 9007199254740992.

(** [a - b] on floats; rounding to nearest is symmetric about zero. *)
Definition fsub (a b : Q) : Q :=
  if Qle_bool b a then rnd (a - b) else - rnd (b - a).

End Binary64.

(* ================================================================== *)
(** * Python primitives *)
(* ================================================================== *)

Module Py.
Open Scope Z_scope.

Inductive exn : Type := ValueError | IndexError.

Inductive result (A : Type) : Type :=
| Ok (a : A)
| Raise (e : exn).
Arguments Ok {A} a.
Arguments Raise {A} e.

Definition bind {A B : Type} (r : result A) (k : A -> result B) : result B :=
  match r with
  | Ok a => k a
  | Raise e => Raise e
  end.

(** [sys.maxsize]: no list is longer. *)
Definition PY_SSIZE_T_MAX : Z := 2 ^ 63 - 1.

Definition len {A : Type} (l : list A) : Z := Z.of_nat (length l).

(** [l[i]], negative subscripts counting from the end. *)
Definition getitem (l : list Z) (i : Z) : result Z :=
  let j := if i <? 0 then i + len l else i in
  if (j <? 0) || (len l <=? j) then Raise IndexError
  else Ok (nth (Z.to_nat j) l 0).

(** [range(start, stop)]. *)
Definition range (start stop : Z) : list Z :=
  map (fun k => start + Z.of_nat k) (seq 0 (Z.to_nat (stop - start))).

(** [sorted(l)] and [l.sort()]: the ascending rearrangement of [l].  On
    integers it is unique ([sorted_unique] below), so the sorting method
    does not matter; insertion is used here. *)
Fixpoint insort (x : Z) (l : list Z) : list Z :=
  match l with
  | [] => [x]
  | y :: l' => if x <? y then x :: l else y :: insort x l'
  end.

Fixpoint sorted (l : list Z) : list Z :=
  match l with
  | [] => []
  | x :: l' => insort x (sorted l')
  end.

(** [bisect.bisect_left(a, x)]:
<<
    lo, hi = 0, len(a)
    while lo < hi:
        mid = (lo + hi) // 2
        if a[mid] < x: lo = mid + 1
        else: hi = mid
    return lo
>>
    [mid < hi <= len(a)] throughout, so [a[mid]] never raises. *)
Equations? bisect_loop (a : list Z) (x : Z) (lo hi : nat) : nat
  by wf (hi - lo)%nat lt :=
  bisect_loop a x lo hi with lt_dec lo hi => {
    | left _ with Z.ltb (nth ((lo + hi) / 2)%nat a 0) x => {
        | true => bisect_loop a x ((lo + hi) / 2 + 1)%nat hi
        | false => bisect_loop a x lo ((lo + hi) / 2)%nat } ;
    | right _ => lo }.
Proof.
  all: change (fst (Nat.divmod (lo + hi) 1 0 1)) with ((lo + hi) / 2)%nat;
       pose proof (Nat.div_mod (lo + hi) 2 ltac:(lia));
       pose proof (Nat.mod_upper_bound (lo + hi) 2 ltac:(lia)); lia.
Qed.

Definition bisect_left (a : list Z) (x : Z) : nat :=
  bisect_loop a x 0 (length a).

(** The number of entries of [a] strictly below [x]. *)
Definition count_lt (a : list Z) (x : Z) : nat :=
  length (filter (fun b => b <? x) a).

(** [l[i] = v] on a list of lists, for [i] inside the list. *)
Fixpoint list_set {A : Type} (l : list A) (i : nat) (v : A) : list A :=
  match l, i with
  | [], _ => []
  | _ :: l', O => v :: l'
  | y :: l', S i' => y :: list_set l' i' v
  end.

End Py.

Export Py.
Import Binary64.

Notation "x <- r ;; k" := (Py.bind r (fun x => k))
  (at level 61, r at next level, right associativity).

Open Scope Z_scope.

(* ================================================================== *)
(** * The numeric parameters of one call *)
(* ================================================================== *)

(** [num_buckets = max(1, int(math.sqrt(n)))] *)
Definition num_buckets (n : Z) : Z :=
  Z.max 1 (int_of_float (fsqrt (float_of_int n))).

(** [sample_size = min(n, max(1000, int(n * 0.01)))] *)
Definition sample_size (n : Z) : Z :=
  Z.min n (Z.max 1000 (int_of_float (fmul (float_of_int n) float_0_01))).

(** [quantile = i / num_buckets; index = int(quantile * (sample_size - 1))] *)
Definition quantile_index (i num_buckets sample_size : Z) : Z :=
  let quantile := int_true_div i num_buckets in
  int_of_float (fmul quantile (float_of_int (sample_size - 1))).

(* ================================================================== *)
(** * The function on list values *)
(* ================================================================== *)

Module Pure.
Section WithRandom.

(** The random source.  [choose g n k] gives the positions that
    [random.sample] selects from a population of [n] elements when asked
    for [k] of them in generator state [g], and the state afterwards. *)
Context {rng : Type}.
Variable choose : rng -> nat -> nat -> list nat * rng.

(** [random.sample(population, k)] *)
Definition random_sample (g : rng) (population : list Z) (k : Z)
  : result (list Z) * rng :=
  if (k <? 0) || (len population <? k) then (Raise ValueError, g)
  else let (positions, g') := choose g (length population) (Z.to_nat k) in
       (Ok (map (fun p => nth p population 0) positions), g').

(** The loop [for i in range(1, num_buckets)], over the remaining values
    [rest] of [i], with the list [bucket_boundaries] built so far. *)
Fixpoint boundaries_loop (sample : list Z) (num_buckets sample_size : Z)
  (rest : list Z) (bucket_boundaries : list Z) : result (list Z) :=
  match rest with
  | [] => Ok bucket_boundaries
  | i :: rest' =>
      let index := quantile_index i num_buckets sample_size in
      v <- getitem sample index ;;
      boundaries_loop sample num_buckets sample_size rest'
        (bucket_boundaries ++ [v])
  end.

(** Lines 26-31: the boundaries for a sorted sample. *)
Definition boundaries (sample : list Z) (num_buckets sample_size : Z)
  : result (list Z) :=
  boundaries_loop sample num_buckets sample_size (range 1 num_buckets) [].

(** The loop [for x in data], over the remaining elements [xs]. *)
Fixpoint assign_loop (bucket_boundaries : list Z) (xs : list Z)
  (buckets : list (list Z)) : result (list (list Z)) :=
  match xs with
  | [] => Ok buckets
  | x :: xs' =>
      let index := bisect_left bucket_boundaries x in
      match nth_error buckets index with
      | Some bucket =>
          assign_loop bucket_boundaries xs'
            (list_set buckets index (bucket ++ [x]))
      | None => Raise IndexError
      end
  end.

(** The loop [for bucket in buckets: sorted_data.extend(sorted(bucket))]. *)
Fixpoint extend_loop (buckets : list (list Z)) (sorted_data : list Z)
  : list Z :=
  match buckets with
  | [] => sorted_data
  | bucket :: rest => extend_loop rest (sorted_data ++ sorted bucket)
  end.

(** The local variables at the end of a call on a non-empty list. *)
Record locals : Type := {
  sample : list Z;
  bucket_boundaries : list Z;
  buckets : list (list Z);
  sorted_data : list Z
}.

(** Lines 17-46, for [n = len(data) > 0]. *)
Definition sort_nonempty (g : rng) (data : list Z) : result locals * rng :=
  let n := len data in
  let num_buckets := num_buckets n in
  let sample_size := sample_size n in
  match random_sample g data sample_size with
  | (Raise e, g') => (Raise e, g')
  | (Ok drawn, g') =>
      let sample := sorted drawn in
      (bucket_boundaries <- boundaries sample num_buckets sample_size ;;
       buckets <- assign_loop bucket_boundaries data
                    (repeat [] (Z.to_nat num_buckets)) ;;
       Ok {| sample := sample;
             bucket_boundaries := bucket_boundaries;
             buckets := buckets;
             sorted_data := extend_loop buckets [] |},
       g')
  end.

Definition bucket_sort_quantile_based (g : rng) (data : list Z)
  : result (list Z) * rng :=
  if len data =? 0 then (Ok data, g)
  else match sort_nonempty g data with
       | (Ok l, g') => (Ok (sorted_data l), g')
       | (Raise e, g') => (Raise e, g')
       end.

End WithRandom.
End Pure.

(* ================================================================== *)
(** * The function over a store of list objects *)
(* ================================================================== *)

(** Python lists are mutable objects reached through references.  Here a
    reference is an address, the store maps each address to the current
    contents of the list object there, and the statements of the function
    are written one by one in a state and exception monad.  An exception
    leaves the store as it was when it was raised. *)
Module Imp.
Section WithRandom.

Context {rng : Type}.
Variable choose : rng -> nat -> nat -> list nat * rng.

Definition addr : Type := nat.

Record state : Type := {
  cells : addr -> list Z;   (* the list object at each address *)
  next : addr;              (* the addresses below [next] are allocated *)
  rand : rng                (* the state of the random generator *)
}.

Definition M (A : Type) : Type := state -> result A * state.

Definition ret {A : Type} (a : A) : M A := fun s => (Ok a, s).

Definition raise {A : Type} (e : exn) : M A := fun s => (Raise e, s).

Definition mbind {A B : Type} (m : M A) (k : A -> M B) : M B :=
  fun s => match m s with
           | (Ok a, s') => k a s'
           | (Raise e, s') => (Raise e, s')
           end.

Notation "x <~ m ;; k" := (mbind m (fun x => k))
  (at level 61, m at next level, right associativity).

(** A new list object with contents [l]. *)
Definition alloc (l : list Z) : M addr :=
  fun s => (Ok (next s),
            {| cells := fun a => if Nat.eqb a (next s) then l else cells s a;
               next := S (next s);
               rand := rand s |}).

Definition load (a : addr) : M (list Z) := fun s => (Ok (cells s a), s).

Definition store (a : addr) (l : list Z) : M unit :=
  fun s => (Ok tt,
            {| cells := fun b => if Nat.eqb b a then l else cells s b;
               next := next s;
               rand := rand s |}).

(** [a.sort()], in place. *)
Definition list_sort (a : addr) : M unit :=
  l <~ load a ;; store a (sorted l).

(** [a.append(v)], in place. *)
Definition list_append (a : addr) (v : Z) : M unit :=
  l <~ load a ;; store a (l ++ [v]).

(** [a.extend(b)], in place. *)
Definition list_extend (a b : addr) : M unit :=
  l <~ load a ;; m <~ load b ;; store a (l ++ m).

(** [sorted(a)]: a new list. *)
Definition py_sorted (a : addr) : M addr :=
  l <~ load a ;; alloc (sorted l).

(** [a[i]] *)
Definition subscript (a : addr) (i : Z) : M Z :=
  l <~ load a ;;
  match getitem l i with
  | Ok v => ret v
  | Raise e => raise e
  end.

(** [random.sample(population, k)]: a new list. *)
Definition random_sample (population : addr) (k : Z) : M addr :=
  l <~ load population ;;
  if (k <? 0) || (len l <? k) then raise ValueError
  else fun s =>
         let (positions, g') := choose (rand s) (length l) (Z.to_nat k) in
         alloc (map (fun p => nth p l 0) positions)
               {| cells := cells s; next := next s; rand := g' |}.

(** [for x in l: body]. *)
Fixpoint for_each {A : Type} (l : list A) (body : A -> M unit) : M unit :=
  match l with
  | [] => ret tt
  | x :: l' => _ <~ body x ;; for_each l' body
  end.

(** [[[] for _ in range(n)]]: the references to [n] new empty lists. *)
Fixpoint new_buckets (n : nat) : M (list addr) :=
  match n with
  | O => ret []
  | S n' => b <~ alloc [] ;; bs <~ new_buckets n' ;; ret (b :: bs)
  end.

(** Lines 17-46, for [n = len(data) > 0].  The result is the pair of the
    references held by [bucket_boundaries] and [sorted_data] at the
    [return]; the function returns the second.  The list [buckets] of
    references is never changed after the comprehension that builds it,
    and [for x in data] reads a list that the loop body does not change,
    so both loops run over a snapshot. *)
Definition sort_nonempty (data : addr) (n : Z) : M (addr * addr) :=
  let num_buckets := num_buckets n in
  let sample_size := sample_size n in
  sample <~ random_sample data sample_size ;;
  _ <~ list_sort sample ;;
  bucket_boundaries <~ alloc [] ;;
  _ <~ for_each (range 1 num_buckets) (fun i =>
         let index := quantile_index i num_buckets sample_size in
         v <~ subscript sample index ;;
         list_append bucket_boundaries v) ;;
  buckets <~ new_buckets (Z.to_nat num_buckets) ;;
  xs <~ load data ;;
  _ <~ for_each xs (fun x =>
         bb <~ load bucket_boundaries ;;
         let index := bisect_left bb x in
         match nth_error buckets index with
         | Some bucket => list_append bucket x
         | None => raise IndexError
         end) ;;
  sorted_data <~ alloc [] ;;
  _ <~ for_each buckets (fun bucket =>
         tmp <~ py_sorted bucket ;;
         list_extend sorted_data tmp) ;;
  ret (bucket_boundaries, sorted_data).

Definition bucket_sort_quantile_based (data : addr) : M addr :=
  xs <~ load data ;;
  let n := len xs in
  if n =? 0 then ret data
  else r <~ sort_nonempty data n ;; ret (snd r).

End WithRandom.

Arguments cells {rng} s a.
Arguments next {rng} s.
Arguments rand {rng} s.

End Imp.

(* ================================================================== *)
(** * The timing wrapper *)
(* ================================================================== *)

(** [bucket_sort_with_timing] (lines 48-64).  [time.perf_counter] is a
    second oracle: [perf_counter c] is the reading, a float number of
    seconds, taken in clock state [c], and the state after the reading.
    An exception of the sort leaves the function before the second
    reading. *)
Module Timing.
Section WithClock.

Context {rng clock : Type}.
Variable choose : rng -> nat -> nat -> list nat * rng.
Variable perf_counter : clock -> Q * clock.

Definition bucket_sort_with_timing (g : rng) (c : clock) (data : list Z)
  : result (list Z * Q) * (rng * clock) :=
  let (start_time, c1) := perf_counter c in
  match Pure.bucket_sort_quantile_based choose g data with
  | (Raise e, g') => (Raise e, (g', c1))
  | (Ok sorted_data, g') =>
      let (end_time, c2) := perf_counter c1 in
      let elapsed_time := fsub end_time start_time in
      (Ok (sorted_data, elapsed_time), (g', c2))
  end.

End WithClock.
End Timing.

(** [time.perf_counter] is monotonic: a later reading is not smaller. *)
Definition clock_monotonic {clock : Type}
  (perf_counter : clock -> Q * clock) : Prop :=
  forall c : clock,
    (fst (perf_counter c) <= fst (perf_counter (snd (perf_counter c))))%Q.

(** A clock that advances by a quarter of a second at each reading. *)
Definition quarter_clock (c : nat) : Q * nat :=
  (inject_Z (Z.of_nat c) * (1 # 4), S c)%Q.

(** The contract of [random.sample]: [k] distinct positions of the
    population. *)
Definition sampler_ok {rng : Type}
  (choose : rng -> nat -> nat -> list nat * rng) : Prop :=
  forall (g : rng) (n k : nat), (k <= n)%nat ->
    length (fst (choose g n k)) = k /\
    NoDup (fst (choose g n k)) /\
    Forall (fun p => (p < n)%nat) (fst (choose g n k)).

(** A sampler that takes the first [k] positions and has no state. *)
Definition first_k (g : unit) (n k : nat) : list nat * unit := (seq 0 k, g).

(** A sampler driven by a counter: it takes [k] consecutive positions
    starting at [g mod (n - k + 1)]. *)
Definition window (g : nat) (n k : nat) : list nat * nat :=
  (seq (g mod (n - k + 1)) k, S g).

(** The claimed sample size of the specification, with [round] to the
    nearest integer. *)
Definition claimed_sample_size (n : Z) : Z :=
  Z.min n (Z.max 1000 (round_half_even (inject_Z n * (1 # 100)))).

(** A store holding one list at address 0. *)
Definition store_of {rng : Type} (l : list Z) (g : rng) : Imp.state :=
  {| Imp.cells := fun a => if Nat.eqb a 0%nat then l else [];
     Imp.next := 1%nat;
     Imp.rand := g |}.

(** The input of the first scenario of the specification. *)
Definition scenario_1 : list Z := [5; 3; 1; 4; 2].

(** A store holding the list at address 2, after two other objects. *)
Definition store_after_others {rng : Type} (l : list Z) (g : rng)
  : Imp.state :=
  {| Imp.cells := fun a => if Nat.eqb a 2%nat then l else [42; 41];
     Imp.next := 3%nat;
     Imp.rand := g |}.

(** What the caller observes of an outcome over the store: the contents
    of the returned list, or the exception, and the generator state. *)
Definition observe {rng : Type}
  (run : result Imp.addr * @Imp.state rng) : result (list Z) * rng :=
  match run with
  | (Ok a, s) => (Ok (Imp.cells s a), Imp.rand s)
  | (Raise e, s) => (Raise e, Imp.rand s)
  end.

(** The same for the pair of [bucket_boundaries] and [sorted_data]. *)
Definition observe_locals {rng : Type}
  (run : result (Imp.addr * Imp.addr) * @Imp.state rng)
  : result (list Z * list Z) * rng :=
  match run with
  | (Ok (bb, sd), s) => (Ok (Imp.cells s bb, Imp.cells s sd), Imp.rand s)
  | (Raise e, s) => (Raise e, Imp.rand s)
  end.

(* ================================================================== *)
(** * Facts about double-precision arithmetic *)
(* ================================================================== *)

Module Binary64Facts.
Import Binary64.
Open Scope Q_scope.

(** ** Powers of two and [ilog2] *)

Lemma pow2_pos e : 0 < 2 ^ e.
Proof. apply Qpower_0_lt. reflexivity. Qed.

Lemma pow2_add a b : 2 ^ (a + b) == 2 ^ a * 2 ^ b.
Proof. apply Qpower_plus. discriminate. Qed.

Lemma pow2_succ a : 2 ^ (a + 1) == 2 * 2 ^ a.
Proof. rewrite pow2_add. change (2 ^ 1) with 2. ring. Qed.

Lemma pow2_le a b : (a <= b)%Z -> 2 ^ a <= 2 ^ b.
Proof. intros. apply Qpower_le_compat_l; [assumption | discriminate]. Qed.

Lemma pow2_lt_inv a b : 2 ^ a < 2 ^ b -> (a < b)%Z.
Proof. intros. apply (Qpower_lt_compat_l_inv 2); [assumption | reflexivity]. Qed.

Lemma pow2_inject e : (0 <= e)%Z -> 2 ^ e == inject_Z (2 ^ e).
Proof. intros. symmetry. apply (Zpower_Qpower 2 e H). Qed.

Lemma ilog2_spec x : 0 < x -> 2 ^ ilog2 x <= x /\ x < 2 ^ (ilog2 x + 1).
Proof.
  intros Hx. unfold ilog2.
  destruct x as [n d]. cbn [Qnum Qden].
  assert (Hn : (0 < n)%Z) by (unfold Qlt in Hx; cbn in Hx; lia).
  set (a := Z.log2 n). set (b := Z.log2 (Z.pos d)).
  assert (Ha : (2 ^ a <= n < 2 ^ (a + 1))%Z).
  { pose proof (Z.log2_spec n Hn). unfold a. rewrite <- Z.add_1_r in H. exact H. }
  assert (Hb : (2 ^ b <= Z.pos d < 2 ^ (b + 1))%Z).
  { pose proof (Z.log2_spec (Z.pos d) eq_refl). unfold b. rewrite <- Z.add_1_r in H. exact H. }
  assert (Ha0 : (0 <= a)%Z) by apply Z.log2_nonneg.
  assert (Hb0 : (0 <= b)%Z) by apply Z.log2_nonneg.
  assert (Hx' : inject_Z n == (n # d) * inject_Z (Z.pos d)).
  { rewrite (Qmake_Qdiv n d). field. discriminate. }
  destruct Ha as [Ha1 Ha2], Hb as [Hb1 Hb2].
  rewrite Zle_Qle in Ha1, Hb1. rewrite Zlt_Qlt in Ha2, Hb2.
  rewrite <- !pow2_inject in Ha1, Ha2, Hb1, Hb2 by lia.
  rewrite pow2_succ in Ha2, Hb2.
  assert (Hab : 2 ^ a == 2 ^ (a - b) * 2 ^ b).
  { rewrite <- pow2_add. replace (a - b + b)%Z with a by lia. reflexivity. }
  pose proof (pow2_pos (a - b)) as Hp.
  pose proof (pow2_pos b) as Hpb.
  set (x := n # d) in *. set (D := inject_Z (Z.pos d)) in *. set (N := inject_Z n) in *.
  set (P := 2 ^ (a - b)) in *. set (B := 2 ^ b) in *. set (A := 2 ^ a) in *.
  assert (Hlt : x < 2 * P).
  { apply Qnot_le_lt. intro Hc.
    assert (2 * P * D <= x * D) by (apply Qmult_le_compat_r; lra).
    assert (P * B <= P * D) by (apply Qmult_le_l; lra).
    lra. }
  assert (Hgt : P < 2 * x).
  { apply Qnot_le_lt. intro Hc.
    assert (2 * x * D <= P * D) by (apply Qmult_le_compat_r; lra).
    assert (P * D < P * (2 * B)) by (apply Qmult_lt_l; lra).
    lra. }
  destruct (Qle_bool P x) eqn:E.
  - apply Qle_bool_iff in E. split; [exact E|]. rewrite pow2_succ. exact Hlt.
  - assert (x < P).
    { apply Qnot_le_lt. intro Hc. apply Qle_bool_iff in Hc. congruence. }
    replace (a - b - 1 + 1)%Z with (a - b)%Z by lia.
    split; [|assumption].
    assert (P == 2 * 2 ^ (a - b - 1)).
    { unfold P. rewrite <- pow2_succ. replace (a - b - 1 + 1)%Z with (a - b)%Z by lia. reflexivity. }
    lra.
Qed.

Lemma ilog2_unique x e : 2 ^ e <= x -> x < 2 ^ (e + 1) -> ilog2 x = e.
Proof.
  intros H1 H2.
  assert (Hx : 0 < x) by (pose proof (pow2_pos e); lra).
  destruct (ilog2_spec x Hx) as [H3 H4].
  assert (e < ilog2 x + 1)%Z by (apply pow2_lt_inv; lra).
  assert (ilog2 x < e + 1)%Z by (apply pow2_lt_inv; lra).
  lia.
Qed.

Lemma ilog2_mono x y : 0 < x -> x <= y -> (ilog2 x <= ilog2 y)%Z.
Proof.
  intros Hx Hxy.
  destruct (ilog2_spec x Hx) as [H1 H2].
  destruct (ilog2_spec y) as [H3 H4]; [lra|].
  assert (ilog2 x < ilog2 y + 1)%Z by (apply pow2_lt_inv; lra). lia.
Qed.

Lemma round_half_even_spec y :
  inject_Z (round_half_even y) - (1#2) <= y /\ y <= inject_Z (round_half_even y) + (1#2).
Proof.
  unfold round_half_even.
  pose proof (Qfloor_le y) as H1. pose proof (Qlt_floor y) as H2.
  rewrite inject_Z_plus in H2. change (inject_Z 1) with 1 in H2.
  destruct (Qcompare_spec (y - inject_Z (Qfloor y)) (1#2)) as [E|E|E].
  - destruct (Z.even (Qfloor y)); rewrite ?inject_Z_plus; change (inject_Z 1) with 1; lra.
  - lra.
  - rewrite inject_Z_plus. change (inject_Z 1) with 1. lra.
Qed.

Lemma round_half_even_Z k : round_half_even (inject_Z k) = k.
Proof.
  unfold round_half_even. rewrite Qfloor_Z.
  destruct (Qcompare_spec (inject_Z k - inject_Z k) (1#2)) as [E|E|E]; try lra. reflexivity.
Qed.

Lemma round_half_even_comp x y : x == y -> round_half_even x = round_half_even y.
Proof.
  intros E. unfold round_half_even. rewrite (Qfloor_comp _ _ E).
  assert (Qcompare (x - inject_Z (Qfloor y)) (1#2) = Qcompare (y - inject_Z (Qfloor y)) (1#2)) as ->.
  { rewrite E. reflexivity. }
  reflexivity.
Qed.

Lemma round_half_even_mono x y : x <= y -> (round_half_even x <= round_half_even y)%Z.
Proof.
  intros Hxy. pose proof (Qfloor_resp_le _ _ Hxy) as Hf.
  unfold round_half_even.
  pose proof (Qfloor_le x) as Hx1. pose proof (Qlt_floor x) as Hx2.
  pose proof (Qfloor_le y) as Hy1. pose proof (Qlt_floor y) as Hy2.
  rewrite inject_Z_plus in Hx2, Hy2. change (inject_Z 1) with 1 in Hx2, Hy2.
  destruct (Z.eq_dec (Qfloor x) (Qfloor y)) as [E|NE].
  - rewrite <- E in *.
    destruct (Qcompare_spec (x - inject_Z (Qfloor x)) (1#2)) as [Ex|Ex|Ex];
    destruct (Qcompare_spec (y - inject_Z (Qfloor x)) (1#2)) as [Ey|Ey|Ey];
    try lra; destruct (Z.even (Qfloor x)); lia.
  - assert (Qfloor x + 1 <= Qfloor y)%Z by lia.
    destruct (Qcompare (x - inject_Z (Qfloor x)) (1#2));
    destruct (Qcompare (y - inject_Z (Qfloor y)) (1#2));
    destruct (Z.even (Qfloor x)); destruct (Z.even (Qfloor y)); lia.
Qed.

Lemma rnd_pos_eq x : 0 < x ->
  rnd x == inject_Z (round_half_even (x / 2 ^ (ilog2 x - 52))) * 2 ^ (ilog2 x - 52).
Proof.
  intros Hx. unfold rnd.
  destruct (Qle_bool x 0) eqn:E.
  - apply Qle_bool_iff in E. lra.
  - apply Qred_correct.
Qed.

Lemma rnd_nonpos x : x <= 0 -> rnd x = 0.
Proof. intros H. unfold rnd. apply Qle_bool_iff in H. rewrite H. reflexivity. Qed.

Lemma scaled_range x : 0 < x ->
  2 ^ 52 <= x / 2 ^ (ilog2 x - 52) /\ x / 2 ^ (ilog2 x - 52) < 2 ^ 53.
Proof.
  intros Hx. destruct (ilog2_spec x Hx) as [H1 H2].
  pose proof (pow2_pos (ilog2 x - 52)) as Hp.
  assert (E : 2 ^ ilog2 x == 2 ^ 52 * 2 ^ (ilog2 x - 52)).
  { rewrite <- pow2_add. replace (52 + (ilog2 x - 52))%Z with (ilog2 x) by lia. reflexivity. }
  rewrite pow2_succ in H2.
  split.
  - apply Qle_shift_div_l; [assumption|]. lra.
  - apply Qlt_shift_div_r; [assumption|]. change (2 ^ 53) with (2 * 2 ^ 52). lra.
Qed.

(** ** Rounding to the nearest double *)

Lemma rnd_decomp x : 0 < x ->
  exists M S : Q, 0 < S /\ rnd x == M * S /\ 2 ^ 52 * S <= x /\ x < 2 ^ 53 * S
     /\ M * S - S * (1#2) <= x /\ x <= M * S + S * (1#2).
Proof.
  intros Hx.
  pose proof (pow2_pos (ilog2 x - 52)) as HS.
  destruct (scaled_range x Hx) as [H1 H2].
  destruct (round_half_even_spec (x / 2 ^ (ilog2 x - 52))) as [H3 H4].
  exists (inject_Z (round_half_even (x / 2 ^ (ilog2 x - 52)))), (2 ^ (ilog2 x - 52)).
  set (S := 2 ^ (ilog2 x - 52)) in *.
  set (M := inject_Z (round_half_even (x / S))) in *.
  assert (Ex : x == (x / S) * S) by (field; lra).
  set (y := x / S) in *.
  split; [assumption|]. split; [apply rnd_pos_eq; assumption|].
  assert (2 ^ 52 * S <= y * S) by (apply Qmult_le_compat_r; lra).
  assert (y * S < 2 ^ 53 * S) by (apply Qmult_lt_compat_r; lra).
  assert ((M - (1#2)) * S <= y * S) by (apply Qmult_le_compat_r; lra).
  assert (y * S <= (M + (1#2)) * S) by (apply Qmult_le_compat_r; lra).
  repeat split; lra.
Qed.

Lemma rnd_error x : 0 <= x -> x * (1 - eps) <= rnd x /\ rnd x <= x * (1 + eps).
Proof.
  intros Hx. destruct (Qlt_le_dec 0 x) as [Hp|Hz].
  - destruct (rnd_decomp x Hp) as (M & S & HS & E & H1 & H2 & H3 & H4).
    rewrite E. unfold eps. change (2 ^ 52) with 4503599627370496 in H1. lra.
  - rewrite rnd_nonpos by assumption. assert (x == 0) by lra. rewrite H. lra.
Qed.

Lemma rnd_nonneg x : 0 <= rnd x.
Proof.
  destruct (Qlt_le_dec 0 x) as [Hp|Hz].
  - destruct (rnd_error x) as [H _]; [lra|]. unfold eps in H.
    assert (0 <= x * (1 - (1 # 9007199254740992))) by (apply Qmult_le_0_compat; lra). lra.
  - rewrite rnd_nonpos by assumption. lra.
Qed.

Lemma rnd_monotone x y : x <= y -> rnd x <= rnd y.
Proof.
  intros Hxy. destruct (Qlt_le_dec 0 x) as [Hp|Hz].
  2:{ rewrite (rnd_nonpos x Hz). apply rnd_nonneg. }
  assert (Hy : 0 < y) by lra.
  rewrite (rnd_pos_eq x Hp), (rnd_pos_eq y Hy).
  pose proof (ilog2_mono x y Hp Hxy) as Hl.
  destruct (scaled_range x Hp) as [Hx1 Hx2].
  destruct (scaled_range y Hy) as [Hy1 Hy2].
  set (ex := (ilog2 x - 52)%Z) in *. set (ey := (ilog2 y - 52)%Z) in *.
  pose proof (pow2_pos ex) as Hpx. pose proof (pow2_pos ey) as Hpy.
  destruct (Z.eq_dec (ilog2 x) (ilog2 y)) as [E|NE].
  - assert (ex = ey) by (unfold ex, ey; lia). rewrite <- H in *.
    apply Qmult_le_compat_r; [|lra].
    rewrite <- Zle_Qle. apply round_half_even_mono.
    apply Qmult_le_compat_r; [assumption|]. apply Qlt_le_weak, Qinv_lt_0_compat, Hpx.
  - assert (Hle : (ex + 1 <= ey)%Z) by (unfold ex, ey; lia).
    assert (Mx : inject_Z (round_half_even (x / 2 ^ ex)) <= 2 ^ 53).
    { change (2 ^ 53) with (inject_Z 9007199254740992). rewrite <- Zle_Qle.
      rewrite <- (round_half_even_Z 9007199254740992).
      apply round_half_even_mono. change (inject_Z 9007199254740992) with (2 ^ 53). lra. }
    assert (My : 2 ^ 52 <= inject_Z (round_half_even (y / 2 ^ ey))).
    { change (2 ^ 52) with (inject_Z 4503599627370496). rewrite <- Zle_Qle.
      rewrite <- (round_half_even_Z 4503599627370496).
      apply round_half_even_mono. change (inject_Z 4503599627370496) with (2 ^ 52). lra. }
    pose proof (pow2_le _ _ Hle) as Hpw. rewrite pow2_succ in Hpw.
    set (Mx' := inject_Z (round_half_even (x / 2 ^ ex))) in *.
    set (My' := inject_Z (round_half_even (y / 2 ^ ey))) in *.
    assert (Mx' * 2 ^ ex <= 2 ^ 53 * 2 ^ ex) by (apply Qmult_le_compat_r; lra).
    assert (2 ^ 52 * 2 ^ ey <= My' * 2 ^ ey) by (apply Qmult_le_compat_r; lra).
    change (2 ^ 53) with 9007199254740992 in *. change (2 ^ 52) with 4503599627370496 in *.
    lra.
Qed.

Lemma rnd_comp x y : x == y -> rnd x == rnd y.
Proof.
  intros E. apply Qle_antisym; apply rnd_monotone; rewrite E; apply Qle_refl.
Qed.

(** Every [m * 2^e] with a mantissa below [2^53] is a double. *)
Lemma rnd_exact m e : (0 <= m < 2 ^ 53)%Z -> rnd (inject_Z m * 2 ^ e) == inject_Z m * 2 ^ e.
Proof.
  intros [Hm0 Hm].
  destruct (Z.eq_dec m 0) as [->|Hnz].
  { rewrite rnd_nonpos; [ring | ]. change (inject_Z 0) with 0. lra. }
  set (x := inject_Z m * 2 ^ e).
  pose proof (pow2_pos e) as Hpe.
  assert (Hm1 : 1 <= inject_Z m) by (change 1 with (inject_Z 1); rewrite <- Zle_Qle; lia).
  assert (Hm2 : inject_Z m < 2 ^ 53).
  { change (2 ^ 53) with (inject_Z (2 ^ 53)). rewrite <- Zlt_Qlt. exact Hm. }
  assert (Hx : 0 < x) by (unfold x; apply Qmult_lt_0_compat; lra).
  rewrite (rnd_pos_eq x Hx).
  destruct (ilog2_spec x Hx) as [H1 H2].
  set (e' := (ilog2 x - 52)%Z).
  assert (Hlt : (ilog2 x < 53 + e)%Z).
  { apply pow2_lt_inv. rewrite pow2_add.
    assert (x < 2 ^ 53 * 2 ^ e) by (unfold x; apply Qmult_lt_compat_r; lra). lra. }
  assert (Hd : (0 <= e - e')%Z) by (unfold e'; lia).
  assert (E : x / 2 ^ e' == inject_Z (m * 2 ^ (e - e'))).
  { rewrite inject_Z_mult. rewrite <- (pow2_inject _ Hd).
    unfold x. replace e with ((e - e') + e')%Z at 1 by lia. rewrite pow2_add.
    field. pose proof (pow2_pos e'). lra. }
  rewrite (round_half_even_comp _ _ E), round_half_even_Z.
  rewrite inject_Z_mult, <- (pow2_inject _ Hd).
  unfold x. replace e with ((e - e') + e')%Z at 2 by lia. rewrite pow2_add. ring.
Qed.

Lemma rnd_exact_Z m : (0 <= m <= 2 ^ 53)%Z -> rnd (inject_Z m) == inject_Z m.
Proof.
  intros Hm. destruct (Z.eq_dec m (2 ^ 53)) as [->|NE].
  - rewrite (rnd_comp _ (inject_Z 1 * 2 ^ 53)) by reflexivity.
    rewrite rnd_exact by lia. reflexivity.
  - rewrite (rnd_comp _ (inject_Z m * 2 ^ 0)) by (change (2 ^ 0) with 1; ring).
    rewrite rnd_exact by lia. change (2 ^ 0) with 1; ring.
Qed.

(** ** Square root and truncation *)

Lemma ilog2_comp x y : 0 < x -> x == y -> ilog2 x = ilog2 y.
Proof.
  intros Hx E. destruct (ilog2_spec x Hx) as [H1 H2].
  symmetry. apply ilog2_unique; rewrite <- E; assumption.
Qed.

Lemma int_of_float_nonneg x : 0 <= x -> int_of_float x = Qfloor x.
Proof. intros H. unfold int_of_float. apply Qle_bool_iff in H. rewrite H. reflexivity. Qed.

Lemma int_of_float_comp x y : 0 <= x -> x == y -> int_of_float x = int_of_float y.
Proof.
  intros H E. rewrite !int_of_float_nonneg by (rewrite <- ?E; assumption).
  apply Qfloor_comp, E.
Qed.

Lemma fsqrt_decomp x : 0 < x ->
  let e := (ilog2 x / 2 - 52)%Z in
  let y := x / 2 ^ (2 * e) in
  let k := Z.sqrt (Qfloor y) in
  exists m : Z, fsqrt x == inject_Z m * 2 ^ e /\
    (m = k \/ (m = (k + 1)%Z /\ (inject_Z k + (1#2)) * (inject_Z k + (1#2)) <= y)).
Proof.
  intros Hx e y k. unfold fsqrt.
  destruct (Qle_bool x 0) eqn:E0; [apply Qle_bool_iff in E0; lra|].
  fold e. fold y. fold k.
  destruct (Qcompare_spec y ((inject_Z k + (1#2)) * (inject_Z k + (1#2)))) as [E|E|E].
  - destruct (Z.even k).
    + exists k. split; [apply Qred_correct | left; reflexivity].
    + exists (k + 1)%Z. split; [apply Qred_correct | right; split; [reflexivity | lra]].
  - exists k. split; [apply Qred_correct | left; reflexivity].
  - exists (k + 1)%Z. split; [apply Qred_correct | right; split; [reflexivity | lra]].
Qed.

Lemma fsqrt_nonneg x : 0 <= fsqrt x.
Proof.
  destruct (Qlt_le_dec 0 x) as [Hp|Hz].
  - destruct (fsqrt_decomp x Hp) as (m & E & Hm). rewrite E.
    apply Qmult_le_0_compat; [|apply Qlt_le_weak, pow2_pos].
    change 0 with (inject_Z 0). rewrite <- Zle_Qle.
    pose proof (Z.sqrt_nonneg (Qfloor (x / 2 ^ (2 * (ilog2 x / 2 - 52))))). lia.
  - unfold fsqrt. apply Qle_bool_iff in Hz. rewrite Hz. lra.
Qed.

Lemma fsqrt_comp x y : 0 < x -> x == y -> fsqrt x == fsqrt y.
Proof.
  intros Hx E. unfold fsqrt.
  assert (Hy : 0 < y) by lra.
  destruct (Qle_bool x 0) eqn:E0; [apply Qle_bool_iff in E0; lra|].
  destruct (Qle_bool y 0) eqn:E1; [apply Qle_bool_iff in E1; lra|].
  rewrite !Qred_correct. rewrite <- (ilog2_comp x y Hx E).
  set (e := (ilog2 x / 2 - 52)%Z).
  assert (Ey : x / 2 ^ (2 * e) == y / 2 ^ (2 * e)) by (rewrite E; reflexivity).
  rewrite <- (Qfloor_comp _ _ Ey).
  set (k := Z.sqrt (Qfloor (x / 2 ^ (2 * e)))).
  assert (Qcompare (x / 2 ^ (2 * e)) ((inject_Z k + (1 # 2)) * (inject_Z k + (1 # 2)))
        = Qcompare (y / 2 ^ (2 * e)) ((inject_Z k + (1 # 2)) * (inject_Z k + (1 # 2)))) as ->.
  { rewrite Ey. reflexivity. }
  reflexivity.
Qed.

(** [int(math.sqrt(n))] is the integer square root below [2^52]. *)
Lemma int_sqrt_exact n : (1 <= n < 2 ^ 52)%Z ->
  int_of_float (fsqrt (float_of_int n)) = Z.sqrt n.
Proof.
  intros Hn.
  assert (Hq : 0 < inject_Z n) by (change 0 with (inject_Z 0); rewrite <- Zlt_Qlt; lia).
  assert (Ern : float_of_int n == inject_Z n) by (apply rnd_exact_Z; lia).
  assert (Hrn : 0 < float_of_int n) by lra.
  rewrite (int_of_float_comp _ (fsqrt (inject_Z n))); [|apply fsqrt_nonneg|apply fsqrt_comp; assumption].
  destruct (fsqrt_decomp _ Hq) as (m & Em & Hm).
  destruct (ilog2_spec _ Hq) as [HL1 HL2].
  set (L := ilog2 (inject_Z n)) in *.
  assert (HL : (0 <= L <= 51)%Z).
  { split.
    - assert (0 < L + 1)%Z; [|lia]. apply pow2_lt_inv. change (2 ^ 0) with (inject_Z 1).
      assert (inject_Z 1 <= inject_Z n) by (rewrite <- Zle_Qle; lia). lra.
    - assert (L < 52)%Z; [|lia]. apply pow2_lt_inv.
      assert (inject_Z n < inject_Z (2 ^ 52)) by (rewrite <- Zlt_Qlt; lia).
      change (inject_Z (2 ^ 52)) with (2 ^ 52) in H. lra. }
  clearbody L.
  set (e := (L / 2 - 52)%Z) in *.
  assert (He : (-52 <= e <= -27)%Z).
  { unfold e. Z.div_mod_to_equations. lia. }
  clearbody e.
  set (T := (2 ^ (- e))%Z).
  assert (HT : (134217728 <= T)%Z).
  { change 134217728%Z with (2 ^ 27)%Z. unfold T. apply Z.pow_le_mono_r; lia. }
  assert (HTq : 2 ^ e == / inject_Z T).
  { unfold T. rewrite <- pow2_inject by lia. rewrite Qpower_opp. 
    field. pose proof (pow2_pos e). lra. }
  clearbody T.
  assert (HTpos : 0 < inject_Z T) by (change 0 with (inject_Z 0); rewrite <- Zlt_Qlt; lia).
  assert (Ey : inject_Z n / 2 ^ (2 * e) == inject_Z (n * T * T)).
  { replace (2 * e)%Z with (e + e)%Z by lia. rewrite pow2_add, HTq, !inject_Z_mult.
    field. lra. }
  rewrite (Qfloor_comp _ _ Ey), Qfloor_Z in Hm.
  set (k := Z.sqrt (n * T * T)) in *.
  set (s := Z.sqrt n) in *.
  assert (Hs : (s * s <= n < (s + 1) * (s + 1))%Z).
  { pose proof (Z.sqrt_spec n). unfold Z.succ in H. apply H. lia. }
  assert (Hk : (k * k <= n * T * T < (k + 1) * (k + 1))%Z).
  { pose proof (Z.sqrt_spec (n * T * T)). unfold Z.succ in H. apply H.
    repeat apply Z.mul_nonneg_nonneg; lia. }
  assert (Hs0 : (0 <= s)%Z) by apply Z.sqrt_nonneg.
  assert (Hk0 : (0 <= k)%Z) by apply Z.sqrt_nonneg.
  clearbody s k.
  assert (Hs26 : (s + 1 <= 67108864)%Z).
  { assert (s < 67108864)%Z; [|lia]. apply Z.nle_gt. intro Hc.
    assert (67108864 * 67108864 <= s * s)%Z by (apply Z.mul_le_mono_nonneg; lia). lia. }
  assert (Hlow : (s * T <= k)%Z).
  { apply Z.nlt_ge. intro Hc.
    assert ((k + 1) * (k + 1) <= (s * T) * (s * T))%Z by (apply Z.mul_le_mono_nonneg; lia).
    nia. }
  assert (Hup : (k < (s + 1) * T)%Z).
  { apply Z.nle_gt. intro Hc.
    assert (((s + 1) * T) * ((s + 1) * T) <= k * k)%Z by (apply Z.mul_le_mono_nonneg; nia).
    nia. }
  assert (Hm' : (s * T <= m < (s + 1) * T)%Z).
  { destruct Hm as [->|[-> Hge]]; [lia|].
    split; [lia|].
    assert (Hz : (k * k + k < n * T * T)%Z).
    { rewrite Zlt_Qlt. rewrite <- Ey in *. rewrite inject_Z_plus, inject_Z_mult.
      set (K := inject_Z k) in *. 
      assert ((K + (1#2)) * (K + (1#2)) == K * K + K + (1#4)) by ring. lra. }
    apply Z.nle_gt. intro Hc.
    assert (k = (s + 1) * T - 1)%Z by lia.
    assert (n * T * T <= ((s + 1) * (s + 1) - 1) * (T * T))%Z by nia.
    assert ((s + 1) * T <= T * T)%Z by nia.
    nia. }
  assert (Em' : inject_Z m * 2 ^ e == inject_Z m / inject_Z T) by (rewrite HTq; reflexivity).
  assert (Hm0 : (0 <= m)%Z) by nia.
  rewrite (int_of_float_comp _ _ (fsqrt_nonneg _) Em).
  rewrite int_of_float_nonneg.
  2:{ apply Qmult_le_0_compat; [|apply Qlt_le_weak, pow2_pos].
      change 0 with (inject_Z 0). rewrite <- Zle_Qle. exact Hm0. }
  rewrite (Qfloor_comp _ _ Em'), <- Zdiv_Qdiv.
  symmetry. apply Z.div_unique with (r := (m - s * T)%Z); lia.
Qed.

Lemma Qfloor_bracket q k : inject_Z k <= q -> q < inject_Z (k + 1) -> Qfloor q = k.
Proof.
  intros H1 H2.
  pose proof (Qfloor_resp_le _ _ H1) as H3. rewrite Qfloor_Z in H3.
  pose proof (Qfloor_le q) as H4.
  assert (Qfloor q < k + 1)%Z by (rewrite Zlt_Qlt; lra). lia.
Qed.

Lemma Qfloor_lower q k : inject_Z k <= q -> (k <= Qfloor q)%Z.
Proof. intros H. pose proof (Qfloor_resp_le _ _ H) as H3. rewrite Qfloor_Z in H3. exact H3. Qed.

Lemma Qfloor_upper q k : q < inject_Z (k + 1) -> (Qfloor q <= k)%Z.
Proof.
  intros H. pose proof (Qfloor_le q) as H4.
  assert (Qfloor q < k + 1)%Z by (rewrite Zlt_Qlt; lra). lia.
Qed.

Lemma float_of_int_pos n : (1 <= n)%Z -> 1 <= float_of_int n.
Proof.
  intros H. unfold float_of_int.
  assert (rnd (inject_Z 1) == 1) by (apply (rnd_exact_Z 1); lia).
  rewrite <- H0. apply rnd_monotone. rewrite <- Zle_Qle. exact H.
Qed.

(** [int(math.sqrt(n))] stays far below [2^51] for every list length. *)
Lemma int_sqrt_bound n : (1 <= n <= 2 ^ 63)%Z ->
  (0 <= int_of_float (fsqrt (float_of_int n)) <= 2 ^ 32 + 1)%Z.
Proof.
  intros Hn. rewrite int_of_float_nonneg by apply fsqrt_nonneg.
  split. { apply (Qfloor_lower _ 0), fsqrt_nonneg. }
  pose proof (float_of_int_pos n ltac:(lia)) as Hx1.
  assert (Hx2 : float_of_int n <= 2 ^ 63).
  { unfold float_of_int.
    assert (E : rnd (inject_Z (2 ^ 63)) == inject_Z (2 ^ 63)).
    { rewrite (rnd_comp _ (inject_Z 1 * 2 ^ 63)) by reflexivity.
      rewrite rnd_exact by lia. reflexivity. }
    change (2 ^ 63) with (inject_Z (2 ^ 63)). rewrite <- E.
    apply rnd_monotone. rewrite <- Zle_Qle. lia. }
  set (x := float_of_int n) in *.
  assert (Hx : 0 < x) by lra.
  destruct (fsqrt_decomp x Hx) as (m & Em & Hm).
  destruct (ilog2_spec x Hx) as [HL1 HL2].
  set (L := ilog2 x) in *.
  assert (HL : (L <= 63)%Z).
  { assert (L < 64)%Z; [|lia]. apply pow2_lt_inv. change (2 ^ 64) with (2 * 2 ^ 63). lra. }
  clearbody L.
  set (e := (L / 2 - 52)%Z) in *.
  assert (He : (e <= -21)%Z) by (unfold e; Z.div_mod_to_equations; lia).
  clearbody e.
  pose proof (pow2_pos e) as Hpe.
  assert (Hpe1 : 2 ^ e <= 1). { change 1 with (2 ^ 0). apply pow2_le. lia. }
  set (y := x / 2 ^ (2 * e)) in *.
  assert (Hpee : 2 ^ (2 * e) == 2 ^ e * 2 ^ e).
  { replace (2 * e)%Z with (e + e)%Z by lia. apply pow2_add. }
  assert (Ey : x == y * (2 ^ e * 2 ^ e)).
  { unfold y. rewrite Hpee. field. lra. }
  assert (Hy : 0 <= y).
  { unfold y. apply Qle_shift_div_l; [apply pow2_pos | lra]. }
  assert (Hfy : (0 <= Qfloor y)%Z) by (apply Qfloor_lower; exact Hy).
  pose proof (Z.sqrt_spec _ Hfy) as [Hk _].
  pose proof (Z.sqrt_nonneg (Qfloor y)) as Hk0.
  set (k := Z.sqrt (Qfloor y)) in *. clearbody k.
  assert (Hky : inject_Z k * inject_Z k <= y).
  { rewrite <- inject_Z_mult. pose proof (Qfloor_le y).
    assert (inject_Z (k * k) <= inject_Z (Qfloor y)) by (rewrite <- Zle_Qle; exact Hk). lra. }
  set (K := inject_Z k) in *.
  assert (HK0 : 0 <= K) by (unfold K; change 0 with (inject_Z 0); rewrite <- Zle_Qle; exact Hk0).
  set (P := 2 ^ e) in *.
  assert (HKP : K * P <= 4294967296).
  { apply Qnot_lt_le. intro Hc.
    assert (HKP0 : 0 <= K * P) by (apply Qmult_le_0_compat; lra).
    assert (4294967296 * 4294967296 <= (K * P) * (K * P)).
    { apply Qmult_le_compat_nonneg; split; lra. }
    assert ((K * K) * (P * P) <= y * (P * P)).
    { apply Qmult_le_compat_r; [exact Hky|]. apply Qmult_le_0_compat; lra. }
    assert ((K * P) * (K * P) == (K * K) * (P * P)) by ring.
    change (2 ^ 63) with 9223372036854775808 in Hx2. lra. }
  assert (Hm' : inject_Z m <= K + 1).
  { destruct Hm as [->|[-> _]]; [fold K; lra|]. rewrite inject_Z_plus. fold K. change (inject_Z 1) with 1. lra. }
  assert (inject_Z m * P <= (K + 1) * P) by (apply Qmult_le_compat_r; lra).
  apply Qfloor_upper. rewrite Em.
  change (inject_Z (2 ^ 32 + 1 + 1)) with 4294967298. lra.
Qed.

(** [int(n * 0.01)] is [n // 100] below [2^52]. *)
Lemma int_percent_exact n : (0 <= n < 2 ^ 52)%Z ->
  int_of_float (fmul (float_of_int n) float_0_01) = (n / 100)%Z.
Proof.
  intros Hn. unfold fmul.
  rewrite int_of_float_nonneg by apply rnd_nonneg.
  assert (Ern : float_of_int n == inject_Z n) by (apply rnd_exact_Z; lia).
  assert (Ex : float_of_int n * float_0_01 == inject_Z n * float_0_01) by (rewrite Ern; reflexivity).
  rewrite (Qfloor_comp _ _ (rnd_comp _ _ Ex)).
  set (k := (n / 100)%Z).
  assert (Hk : (100 * k <= n <= 100 * k + 99)%Z) by (unfold k; Z.div_mod_to_equations; lia).
  clearbody k.
  assert (Hk1 : inject_Z 100 * inject_Z k <= inject_Z n).
  { rewrite <- inject_Z_mult, <- Zle_Qle. lia. }
  assert (Hk2 : inject_Z n <= inject_Z 100 * inject_Z k + inject_Z 99).
  { rewrite <- inject_Z_mult, <- inject_Z_plus, <- Zle_Qle. lia. }
  assert (Hk3 : inject_Z n < inject_Z (2 ^ 52)) by (rewrite <- Zlt_Qlt; lia).
  assert (Hk0 : 0 <= inject_Z k) by (change 0 with (inject_Z 0); rewrite <- Zle_Qle; lia).
  change (inject_Z 100) with 100 in *. change (inject_Z 99) with 99 in *.
  change (inject_Z (2 ^ 52)) with 4503599627370496 in *.
  set (N := inject_Z n) in *. 
  apply Qfloor_bracket.
  - rewrite <- (rnd_exact_Z k) by lia. apply rnd_monotone.
    unfold float_0_01. set (K := inject_Z k) in *. lra.
  - set (f := inject_Z (128 * (k + 1) - 1) * 2 ^ (-7)).
    assert (Ef : rnd f == f) by (apply rnd_exact; lia).
    assert (Hf : f == inject_Z k + 1 - (1 # 128)).
    { unfold f. replace (128 * (k + 1) - 1)%Z with (128 * k + 127)%Z by lia.
      rewrite inject_Z_plus, inject_Z_mult.
      change (2 ^ (-7)) with (1 # 128). change (inject_Z 128) with 128.
      change (inject_Z 127) with 127. field. }
    assert (rnd (N * float_0_01) <= rnd f).
    { apply rnd_monotone. rewrite Hf. unfold float_0_01. set (K := inject_Z k) in *. lra. }
    rewrite inject_Z_plus. change (inject_Z 1) with 1. lra.
Qed.

(** ** The quantile index *)

Lemma inject_Z_sub x y : inject_Z (x - y) = inject_Z x - inject_Z y.
Proof. unfold Z.sub, Qminus. rewrite inject_Z_plus, inject_Z_opp. reflexivity. Qed.

Lemma float_of_int_nonneg n : 0 <= float_of_int n.
Proof. apply rnd_nonneg. Qed.

Lemma quantile_index_nonneg i b s : (0 <= quantile_index i b s)%Z.
Proof.
  unfold quantile_index, fmul. rewrite int_of_float_nonneg by apply rnd_nonneg.
  apply (Qfloor_lower _ 0), rnd_nonneg.
Qed.

Lemma quantile_index_mono i j b s :
  (0 < b)%Z -> (i <= j)%Z -> (quantile_index i b s <= quantile_index j b s)%Z.
Proof.
  intros Hb Hij. unfold quantile_index, fmul, int_true_div.
  rewrite !int_of_float_nonneg by apply rnd_nonneg.
  apply Qfloor_resp_le, rnd_monotone.
  apply Qmult_le_compat_r; [|apply float_of_int_nonneg].
  apply rnd_monotone.
  apply Qmult_le_compat_r.
  - rewrite <- Zle_Qle. exact Hij.
  - apply Qlt_le_weak, Qinv_lt_0_compat. change 0 with (inject_Z 0). rewrite <- Zlt_Qlt. exact Hb.
Qed.

(** The subscript [sample[index]] stays inside the sample. *)
Lemma quantile_index_upper i b s :
  (0 <= i < b)%Z -> (b <= 2 ^ 51)%Z -> (1 <= s)%Z -> (quantile_index i b s <= s - 1)%Z.
Proof.
  intros Hi Hb Hs. unfold quantile_index, fmul, int_true_div.
  rewrite int_of_float_nonneg by apply rnd_nonneg.
  set (B := inject_Z b). set (I := inject_Z i). set (S := inject_Z (s - 1)).
  assert (HB : 1 <= B) by (unfold B; change 1 with (inject_Z 1); rewrite <- Zle_Qle; lia).
  assert (HB2 : B <= 2251799813685248).
  { unfold B. change 2251799813685248 with (inject_Z (2 ^ 51)). rewrite <- Zle_Qle. lia. }
  assert (HI : 0 <= I) by (unfold I; change 0 with (inject_Z 0); rewrite <- Zle_Qle; lia).
  assert (HIB : I <= B - 1).
  { unfold I, B. change 1 with (inject_Z 1). rewrite <- inject_Z_sub, <- Zle_Qle. lia. }
  assert (HS : 0 <= S) by (unfold S; change 0 with (inject_Z 0); rewrite <- Zle_Qle; lia).
  set (u := I / B).
  assert (Eu : u * B == I) by (unfold u; field; lra).
  assert (Hu0 : 0 <= u) by (unfold u; apply Qle_shift_div_l; lra).
  assert (Hu : u <= 1 - (1 # 2251799813685248)).
  { apply Qnot_lt_le. intro Hc.
    assert ((1 - (1 # 2251799813685248)) * B < u * B) by (apply Qmult_lt_compat_r; lra).
    lra. }
  destruct (rnd_error u Hu0) as [_ Hq]. unfold eps in Hq.
  pose proof (rnd_nonneg u) as Hq0.
  unfold float_of_int. fold S.
  destruct (rnd_error S HS) as [_ Hfs]. unfold eps in Hfs.
  pose proof (rnd_nonneg S) as Hfs0.
  set (fq := rnd u) in *. set (fs := rnd S) in *.
  assert (Hp0 : 0 <= fq * fs) by (apply Qmult_le_0_compat; assumption).
  destruct (rnd_error _ Hp0) as [_ Hr]. unfold eps in Hr.
  assert (Hp : fq * fs <= (1 - (1 # 2251799813685248)) * (1 + (1 # 9007199254740992)) * fs).
  { apply Qmult_le_compat_r; [lra | assumption]. }
  apply Qfloor_upper. replace (s - 1 + 1)%Z with ((s - 1) + 1)%Z by lia.
  rewrite inject_Z_plus. fold S. change (inject_Z 1) with 1.
  set (r := rnd (fq * fs)) in *. set (p := fq * fs) in *. lra.
Qed.

(** The double-precision quantile index is the exact floor or one below it. *)
Lemma quantile_index_bracket i b s :
  (1 <= i < b)%Z -> (1 <= s)%Z -> (b * s <= 2 ^ 51)%Z ->
  (i * (s - 1) / b - 1 <= quantile_index i b s <= i * (s - 1) / b)%Z.
Proof.
  intros Hi Hs Hbs. unfold quantile_index, fmul, int_true_div.
  rewrite int_of_float_nonneg by apply rnd_nonneg.
  assert (Hs53 : (0 <= s - 1 <= 2 ^ 53)%Z) by nia.
  assert (Efs : float_of_int (s - 1) == inject_Z (s - 1)) by (apply rnd_exact_Z; exact Hs53).
  set (F := (i * (s - 1) / b)%Z).
  assert (HF : (b * F <= i * (s - 1) < b * (F + 1))%Z).
  { unfold F. Z.div_mod_to_equations. nia. }
  assert (HF0 : (0 <= F)%Z) by (unfold F; apply Z.div_pos; nia).
  clearbody F.
  assert (HFs : (F + 1 <= s)%Z) by nia.
  assert (HP : ((F + 1) * b <= 2 ^ 51)%Z) by nia.
  set (B := inject_Z b). set (I := inject_Z i). set (S := inject_Z (s - 1)) in *.
  set (G := inject_Z F).
  assert (HB : 1 <= B) by (unfold B; change 1 with (inject_Z 1); rewrite <- Zle_Qle; lia).
  assert (HI : 0 <= I) by (unfold I; change 0 with (inject_Z 0); rewrite <- Zle_Qle; lia).
  assert (HS : 0 <= S) by (unfold S; change 0 with (inject_Z 0); rewrite <- Zle_Qle; lia).
  assert (HG0 : 0 <= G) by (unfold G; change 0 with (inject_Z 0); rewrite <- Zle_Qle; lia).
  assert (HG1 : G <= 2251799813685248).
  { unfold G. change 2251799813685248 with (inject_Z (2 ^ 51)). rewrite <- Zle_Qle. nia. }
  assert (HQ1 : B * G <= I * S).
  { unfold B, G, I, S. rewrite <- !inject_Z_mult, <- Zle_Qle. lia. }
  assert (HQ2 : I * S <= B * (G + 1) - 1).
  { unfold B, G, I, S. change 1 with (inject_Z 1).
    rewrite <- inject_Z_plus, <- !inject_Z_mult, <- inject_Z_sub, <- Zle_Qle. lia. }
  assert (HQ3 : (G + 1) * B <= 2251799813685248).
  { unfold G, B. change 1 with (inject_Z 1). change 2251799813685248 with (inject_Z (2 ^ 51)).
    rewrite <- inject_Z_plus, <- inject_Z_mult, <- Zle_Qle. exact HP. }
  set (u := I / B).
  assert (Eu : u * B == I) by (unfold u; field; lra).
  assert (Hu0 : 0 <= u) by (unfold u; apply Qle_shift_div_l; lra).
  destruct (rnd_error u Hu0) as [Hq1 Hq2]. unfold eps in Hq1, Hq2.
  pose proof (rnd_nonneg u) as Hq0.
  set (fq := rnd u) in *.
  assert (Ep : fq * float_of_int (s - 1) == fq * S) by (rewrite Efs; reflexivity).
  rewrite (Qfloor_comp _ _ (rnd_comp _ _ Ep)).
  assert (Hp0 : 0 <= fq * S) by (apply Qmult_le_0_compat; assumption).
  destruct (rnd_error _ Hp0) as [Hr1 Hr2]. unfold eps in Hr1, Hr2.
  set (E := u * S).
  assert (HE0 : 0 <= E) by (apply Qmult_le_0_compat; assumption).
  assert (HEb : E * B == I * S) by (unfold E; rewrite <- Eu; ring).
  assert (Hp1 : u * (1 - (1 # 9007199254740992)) * S <= fq * S) by (apply Qmult_le_compat_r; lra).
  assert (Hp2 : fq * S <= u * (1 + (1 # 9007199254740992)) * S) by (apply Qmult_le_compat_r; lra).
  assert (E1 : u * (1 - (1 # 9007199254740992)) * S == E * (1 - (1 # 9007199254740992))) by (unfold E; ring).
  assert (E2 : u * (1 + (1 # 9007199254740992)) * S == E * (1 + (1 # 9007199254740992))) by (unfold E; ring).
  assert (HGE : G <= E).
  { apply Qnot_lt_le. intro Hc.
    assert (E * B < G * B) by (apply Qmult_lt_compat_r; lra). lra. }
  set (r := rnd (fq * S)) in *. set (p := fq * S) in *.
  split.
  - apply Qfloor_lower. rewrite inject_Z_sub. fold G. change (inject_Z 1) with 1. lra.
  - apply Qfloor_upper. rewrite inject_Z_plus. fold G. change (inject_Z 1) with 1.
    apply Qnot_le_lt. intro Hc.
    assert ((G + 1) * B <= r * B) by (apply Qmult_le_compat_r; lra).
    assert (r * B <= E * (1 + (1 # 9007199254740992)) * (1 + (1 # 9007199254740992)) * B).
    { apply Qmult_le_compat_r; lra. }
    assert (E * (1 + (1 # 9007199254740992)) * (1 + (1 # 9007199254740992)) * B
            == (E * B) * ((1 + (1 # 9007199254740992)) * (1 + (1 # 9007199254740992)))) by ring.
    set (EB := E * B) in *. set (GB := (G + 1) * B) in *.
    assert (B * (G + 1) == GB) by (unfold GB; ring).
    lra.
Qed.

End Binary64Facts.

(* ================================================================== *)
(** * Facts about the Python primitives *)
(* ================================================================== *)

Section PrimitiveFacts.

(** ** [sorted] *)

Lemma insort_perm x l : Permutation (x :: l) (insort x l).
Proof.
  induction l as [|y l IH]; simpl; [reflexivity|].
  destruct (x <? y); [reflexivity|].
  rewrite perm_swap. constructor. exact IH.
Qed.

Lemma sorted_perm l : Permutation l (sorted l).
Proof.
  induction l as [|x l IH]; simpl; [constructor|].
  rewrite <- insort_perm. constructor. exact IH.
Qed.

Lemma sorted_length l : length (sorted l) = length l.
Proof. symmetry. apply Permutation_length, sorted_perm. Qed.

Lemma insort_sorted x l :
  StronglySorted Z.le l -> StronglySorted Z.le (insort x l).
Proof.
  induction 1 as [|y l Hs IH Hy]; simpl.
  - repeat constructor.
  - destruct (Z.ltb_spec x y) as [Hlt|Hge].
    + constructor; [constructor; assumption|].
      constructor; [lia|]. eapply Forall_impl; [|exact Hy]. simpl. intros; lia.
    + constructor; [exact IH|].
      eapply Permutation_Forall; [apply insort_perm|].
      constructor; assumption.
Qed.

Lemma sorted_sorted l : StronglySorted Z.le (sorted l).
Proof.
  induction l as [|x l IH]; simpl; [constructor | apply insort_sorted, IH].
Qed.

(** A list of integers has a single ascending rearrangement, which
    [sorted] computes. *)
Lemma sorted_unique l l' :
  StronglySorted Z.le l' -> Permutation l l' -> sorted l = l'.
Proof.
  intros Hs' Hp.
  assert (Hp' : Permutation (sorted l) l') by (rewrite <- sorted_perm; exact Hp).
  pose proof (sorted_sorted l) as Hs. clear Hp.
  revert l' Hs' Hp'. induction Hs as [|x xs Hxs IH Hx]; intros l' Hs' Hp.
  - apply Permutation_nil in Hp. congruence.
  - destruct l' as [|y ys].
    + symmetry in Hp. apply Permutation_nil in Hp. discriminate.
    + inversion Hs' as [|? ? Hys Hy]; subst.
      assert (x = y).
      { assert (In y (x :: xs)) by (eapply Permutation_in; [symmetry; exact Hp | left; reflexivity]).
        assert (In x (y :: ys)) by (eapply Permutation_in; [exact Hp | left; reflexivity]).
        rewrite Forall_forall in Hx, Hy. simpl in *.
        destruct H as [->|H]; [reflexivity|]. destruct H0 as [->|H0]; [reflexivity|].
        specialize (Hx _ H). specialize (Hy _ H0). lia. }
      subst y. f_equal. apply IH; [exact Hys|].
      eapply Permutation_cons_inv. exact Hp.
Qed.

Lemma StronglySorted_nth l :
  StronglySorted Z.le l ->
  forall i j, (i <= j < length l)%nat -> nth i l 0 <= nth j l 0.
Proof.
  induction 1 as [|x l Hs IH Hx]; intros i j Hij; simpl in *; [lia|].
  destruct i, j; try lia.
  - rewrite Forall_forall in Hx. apply Hx, nth_In. lia.
  - apply IH. lia.
Qed.

Lemma StronglySorted_app l1 l2 :
  StronglySorted Z.le l1 -> StronglySorted Z.le l2 ->
  (forall x y, In x l1 -> In y l2 -> x <= y) ->
  StronglySorted Z.le (l1 ++ l2).
Proof.
  intros H1 H2 Hc. induction H1 as [|x l Hs IH Hx]; simpl; [exact H2|].
  constructor.
  - apply IH. intros; apply Hc; [right|]; assumption.
  - apply Forall_app. split; [exact Hx|].
    apply Forall_forall. intros y Hy. apply Hc; [left; reflexivity | exact Hy].
Qed.

(** ** [range] *)

Lemma range_length a b : length (range a b) = Z.to_nat (b - a).
Proof. unfold range. rewrite length_map, length_seq. reflexivity. Qed.

Lemma range_nth a b k :
  (k < Z.to_nat (b - a))%nat -> nth k (range a b) 0 = a + Z.of_nat k.
Proof.
  intros Hk. unfold range.
  rewrite (nth_indep _ 0 (a + Z.of_nat 0)) by (rewrite length_map, length_seq; exact Hk).
  rewrite (map_nth (fun k => a + Z.of_nat k)), seq_nth by exact Hk. reflexivity.
Qed.

Lemma range_In a b i : In i (range a b) <-> a <= i < b.
Proof.
  unfold range. rewrite in_map_iff. split.
  - intros (k & <- & Hk). apply in_seq in Hk. lia.
  - intros Hi. exists (Z.to_nat (i - a)). split; [lia|]. apply in_seq. lia.
Qed.

Lemma range_sorted a b : StronglySorted Z.le (range a b).
Proof.
  unfold range. generalize (Z.to_nat (b - a)) as n. intros n.
  generalize 0%nat as s. induction n as [|n IH]; intros s; simpl; constructor.
  - apply IH.
  - apply Forall_forall. intros y Hy. apply in_map_iff in Hy.
    destruct Hy as (k & <- & Hk). apply in_seq in Hk. lia.
Qed.

Lemma map_sorted (f : Z -> Z) l :
  StronglySorted Z.le l ->
  (forall i j, In i l -> In j l -> i <= j -> f i <= f j) ->
  StronglySorted Z.le (map f l).
Proof.
  induction 1 as [|x l Hs IH Hx]; intros Hf; simpl; constructor.
  - apply IH. intros; apply Hf; simpl; auto.
  - apply Forall_forall. intros y Hy. apply in_map_iff in Hy.
    destruct Hy as (k & <- & Hk). rewrite Forall_forall in Hx.
    apply Hf; simpl; auto.
Qed.

(** ** [getitem] *)

Lemma getitem_ok l i :
  0 <= i < len l -> getitem l i = Ok (nth (Z.to_nat i) l 0).
Proof.
  intros Hi. unfold getitem.
  destruct (Z.ltb_spec i 0); [lia|].
  destruct (Z.ltb_spec i 0); [lia|].
  destruct (Z.leb_spec (len l) i); [lia|]. reflexivity.
Qed.

(** ** [count_lt] and [bisect_left] *)

Lemma count_lt_le_length a x : (count_lt a x <= length a)%nat.
Proof. apply filter_length_le. Qed.

Lemma count_lt_mono a x y : x <= y -> (count_lt a x <= count_lt a y)%nat.
Proof.
  intros Hxy. unfold count_lt. induction a as [|b a IH]; simpl; [lia|].
  destruct (Z.ltb_spec b x), (Z.ltb_spec b y); simpl; lia.
Qed.

Lemma count_lt_split a x r :
  (r <= length a)%nat ->
  (forall j, (j < r)%nat -> nth j a 0 < x) ->
  (forall j, (r <= j < length a)%nat -> x <= nth j a 0) ->
  count_lt a x = r.
Proof.
  unfold count_lt. revert r. induction a as [|b a IH]; intros r Hr Hlo Hhi; simpl in *.
  - lia.
  - destruct r as [|r].
    + specialize (Hhi 0%nat ltac:(lia)) as Hb. simpl in Hb.
      destruct (Z.ltb_spec b x); [lia|].
      apply IH; [lia | intros; lia |]. intros j Hj. apply (Hhi (S j)). lia.
    + specialize (Hlo 0%nat ltac:(lia)) as Hb. simpl in Hb.
      destruct (Z.ltb_spec b x); [|lia]. simpl. f_equal.
      apply IH; [lia | |].
      * intros j Hj. apply (Hlo (S j)). lia.
      * intros j Hj. apply (Hhi (S j)). lia.
Qed.

Lemma bisect_loop_spec a x :
  StronglySorted Z.le a ->
  forall lo hi,
  (lo <= hi <= length a)%nat ->
  (forall j, (j < lo)%nat -> nth j a 0 < x) ->
  (forall j, (hi <= j < length a)%nat -> x <= nth j a 0) ->
  let r := bisect_loop a x lo hi in
  (lo <= r <= hi)%nat /\
  (forall j, (j < r)%nat -> nth j a 0 < x) /\
  (forall j, (r <= j < length a)%nat -> x <= nth j a 0).
Proof.
  intros Hs lo hi. funelim (bisect_loop a x lo hi); intros Hb Hlo Hhi; cbn zeta.
  - (* lo = hi *)
    assert (lo = hi) by lia. subst hi.
    repeat split; try assumption; lia.
  - (* a[mid] < x *)
    set (mid := ((lo + hi) / 2)%nat) in *.
    assert (Hmid : (lo <= mid < hi)%nat).
    { unfold mid. pose proof (Nat.div_mod (lo + hi) 2 ltac:(lia)).
      pose proof (Nat.mod_upper_bound (lo + hi) 2 ltac:(lia)). lia. }
    match goal with E : (_ <? _) = true |- _ => apply Z.ltb_lt in E; rename E into Hlt end.
    match goal with IH : StronglySorted _ _ -> _ |- _ =>
      destruct (IH Hs) as (Hr1 & Hr2 & Hr3) end; [lia | | assumption | ].
    + intros j Hj. destruct (Nat.lt_ge_cases j lo) as [Hjl|Hjl]; [apply Hlo; exact Hjl|].
      pose proof (StronglySorted_nth a Hs j mid ltac:(lia)). lia.
    + repeat split; try assumption; lia.
  - (* x <= a[mid] *)
    set (mid := ((lo + hi) / 2)%nat) in *.
    assert (Hmid : (lo <= mid < hi)%nat).
    { unfold mid. pose proof (Nat.div_mod (lo + hi) 2 ltac:(lia)).
      pose proof (Nat.mod_upper_bound (lo + hi) 2 ltac:(lia)). lia. }
    match goal with E : (_ <? _) = false |- _ => apply Z.ltb_ge in E; rename E into Hge end.
    match goal with IH : StronglySorted _ _ -> _ |- _ =>
      destruct (IH Hs) as (Hr1 & Hr2 & Hr3) end; [lia | assumption | | ].
    + intros j Hj. destruct (Nat.lt_ge_cases j hi) as [Hjl|Hjl]; [|apply Hhi; lia].
      pose proof (StronglySorted_nth a Hs mid j ltac:(lia)). lia.
    + repeat split; try assumption; lia.
Qed.

(** On a sorted list the binary search returns the number of entries
    strictly below [x]. *)
Lemma bisect_left_count a x :
  StronglySorted Z.le a -> bisect_left a x = count_lt a x.
Proof.
  intros Hs. unfold bisect_left.
  destruct (bisect_loop_spec a x Hs 0 (length a)) as (H1 & H2 & H3);
    [lia | intros; lia | intros; lia |].
  symmetry. apply count_lt_split; [lia | exact H2 | exact H3].
Qed.

End PrimitiveFacts.

(* ================================================================== *)
(** * Facts about the numeric parameters *)
(* ================================================================== *)

Section ParameterFacts.

Lemma sample_size_bounds n : 1 <= n -> 1 <= sample_size n <= n.
Proof. intros Hn. unfold sample_size. lia. Qed.

Lemma num_buckets_bounds n :
  1 <= n <= PY_SSIZE_T_MAX -> 1 <= num_buckets n <= 2 ^ 32 + 1.
Proof.
  intros Hn. unfold num_buckets, PY_SSIZE_T_MAX in *.
  pose proof (Binary64Facts.int_sqrt_bound n ltac:(lia)). lia.
Qed.

Lemma num_buckets_isqrt n : 0 <= n < 2 ^ 52 -> num_buckets n = Z.max 1 (Z.sqrt n).
Proof.
  intros Hn. destruct (Z.eq_dec n 0) as [->|Hnz]; [reflexivity|].
  unfold num_buckets. rewrite Binary64Facts.int_sqrt_exact by lia. reflexivity.
Qed.

Lemma sample_size_percent n :
  0 <= n < 2 ^ 52 -> sample_size n = Z.min n (Z.max 1000 (n / 100)).
Proof.
  intros Hn. unfold sample_size.
  rewrite Binary64Facts.int_percent_exact by exact Hn. reflexivity.
Qed.

Lemma quantile_index_valid n i :
  1 <= n <= PY_SSIZE_T_MAX -> 1 <= i < num_buckets n ->
  0 <= quantile_index i (num_buckets n) (sample_size n) < sample_size n.
Proof.
  intros Hn Hi.
  pose proof (num_buckets_bounds n Hn) as Hb.
  pose proof (sample_size_bounds n ltac:(lia)) as Hs.
  pose proof (Binary64Facts.quantile_index_nonneg i (num_buckets n) (sample_size n)).
  pose proof (Binary64Facts.quantile_index_upper i (num_buckets n) (sample_size n)
                ltac:(lia) ltac:(lia) ltac:(lia)).
  lia.
Qed.

End ParameterFacts.

(* ================================================================== *)
(** * Facts about the loops *)
(* ================================================================== *)

Section LoopFacts.

Lemma list_set_length {A : Type} (l : list A) i v :
  length (list_set l i v) = length l.
Proof.
  revert i; induction l as [|y l IH]; intros [|i]; simpl; auto.
Qed.

Lemma list_set_nth_eq {A : Type} (l : list A) i v d :
  (i < length l)%nat -> nth i (list_set l i v) d = v.
Proof.
  revert i; induction l as [|y l IH]; intros [|i] Hi; simpl in *; try lia; auto.
  apply IH. lia.
Qed.

Lemma list_set_nth_neq {A : Type} (l : list A) i j v d :
  i <> j -> nth j (list_set l i v) d = nth j l d.
Proof.
  revert i j; induction l as [|y l IH]; intros [|i] [|j] Hij; simpl; auto; try lia.
Qed.

(** The quantile loop, when every subscript is inside the sample. *)
Lemma boundaries_loop_ok smp nb ss rest acc :
  (forall i, In i rest -> 0 <= quantile_index i nb ss < len smp) ->
  Pure.boundaries_loop smp nb ss rest acc =
  Ok (acc ++ map (fun i => nth (Z.to_nat (quantile_index i nb ss)) smp 0) rest).
Proof.
  revert acc. induction rest as [|i rest IH]; intros acc Hv; simpl.
  - rewrite app_nil_r. reflexivity.
  - rewrite getitem_ok by (apply Hv; left; reflexivity). simpl.
    rewrite IH by (intros; apply Hv; right; assumption).
    rewrite <- app_assoc. reflexivity.
Qed.

(** The assignment loop: bucket [j] receives, in order, the elements whose
    insertion point is [j]. *)
Lemma assign_loop_ok bs xs acc :
  (forall x, In x xs -> (bisect_left bs x < length acc)%nat) ->
  exists res, Pure.assign_loop bs xs acc = Ok res /\
    length res = length acc /\
    forall j, nth j res [] =
              nth j acc [] ++ filter (fun x => Nat.eqb (bisect_left bs x) j) xs.
Proof.
  revert acc. induction xs as [|x xs IH]; intros acc Hv; simpl.
  - exists acc. repeat split. intros j. rewrite app_nil_r. reflexivity.
  - assert (Hx : (bisect_left bs x < length acc)%nat) by (apply Hv; left; reflexivity).
    destruct (nth_error acc (bisect_left bs x)) as [b|] eqn:E.
    2:{ apply nth_error_None in E. lia. }
    destruct (IH (list_set acc (bisect_left bs x) (b ++ [x]))) as (res & Hr & Hl & Hn).
    { intros y Hy. rewrite list_set_length. apply Hv. right. exact Hy. }
    exists res. split; [exact Hr|]. split; [rewrite Hl; apply list_set_length|].
    intros j. rewrite Hn.
    simpl. destruct (Nat.eqb_spec (bisect_left bs x) j) as [Ej|Hne].
    + subst j. rewrite list_set_nth_eq by exact Hx.
      rewrite (nth_error_nth _ _ [] E). rewrite <- app_assoc. reflexivity.
    + rewrite list_set_nth_neq by exact Hne. reflexivity.
Qed.

Lemma extend_loop_concat bks acc :
  Pure.extend_loop bks acc = acc ++ concat (map sorted bks).
Proof.
  revert acc. induction bks as [|b bks IH]; intros acc; simpl.
  - rewrite app_nil_r. reflexivity.
  - rewrite IH, <- app_assoc. reflexivity.
Qed.

(** ** Splitting a list into classes *)

Lemma filter_split_perm (p : Z -> bool) l :
  Permutation l (filter p l ++ filter (fun x => negb (p x)) l).
Proof.
  induction l as [|x l IH]; simpl; [constructor|].
  destruct (p x); simpl.
  - constructor. exact IH.
  - apply Permutation_cons_app. exact IH.
Qed.

Lemma classes_perm (f : Z -> nat) nb : forall a xs,
  (forall x, In x xs -> (a <= f x < a + nb)%nat) ->
  Permutation xs
    (concat (map (fun j => filter (fun x => Nat.eqb (f x) j) xs) (seq a nb))).
Proof.
  induction nb as [|nb IH]; intros a xs Hr; simpl.
  - destruct xs as [|x xs]; [constructor|].
    specialize (Hr x (or_introl eq_refl)). lia.
  - rewrite (filter_split_perm (fun x => Nat.eqb (f x) a) xs) at 1.
    apply Permutation_app; [reflexivity|].
    set (xs' := filter (fun x => negb (Nat.eqb (f x) a)) xs).
    rewrite (IH (S a) xs').
    2:{ intros x Hx. apply filter_In in Hx. destruct Hx as [Hx Hne].
        specialize (Hr x Hx). apply negb_true_iff, Nat.eqb_neq in Hne. lia. }
    apply Permutation_refl'. f_equal. apply map_ext_in.
    intros j Hj. apply in_seq in Hj. unfold xs'.
    clear -Hj. induction xs as [|x xs IHx]; simpl; [reflexivity|].
    destruct (Nat.eqb_spec (f x) a) as [Ea|Na]; simpl.
    + destruct (Nat.eqb_spec (f x) j); [lia | exact IHx].
    + destruct (Nat.eqb (f x) j); [f_equal|]; exact IHx.
Qed.

Lemma classes_sorted (f : Z -> nat) xs :
  (forall x y, In x xs -> In y xs -> (f x < f y)%nat -> x <= y) ->
  forall nb a,
  StronglySorted Z.le
    (concat (map sorted
       (map (fun j => filter (fun x => Nat.eqb (f x) j) xs) (seq a nb)))).
Proof.
  intros Hf. induction nb as [|nb IH]; intros a; simpl; [constructor|].
  apply StronglySorted_app; [apply sorted_sorted | apply IH |].
  intros x y Hx Hy.
  apply (Permutation_in _ (Permutation_sym (sorted_perm _))) in Hx.
  apply filter_In in Hx. destruct Hx as [Hx Hfx]. apply Nat.eqb_eq in Hfx.
  apply in_concat in Hy. destruct Hy as (c & Hc & Hy).
  apply in_map_iff in Hc. destruct Hc as (c' & <- & Hc').
  apply in_map_iff in Hc'. destruct Hc' as (j & <- & Hj). apply in_seq in Hj.
  apply (Permutation_in _ (Permutation_sym (sorted_perm _))) in Hy.
  apply filter_In in Hy. destruct Hy as [Hy Hfy]. apply Nat.eqb_eq in Hfy.
  apply Hf; [assumption | assumption | lia].
Qed.

End LoopFacts.

(* ================================================================== *)
(** * The function on list values: what one call computes *)
(* ================================================================== *)

Section PureFacts.

Context {rng : Type}.
Variable choose : rng -> nat -> nat -> list nat * rng.
Hypothesis choose_ok : sampler_ok choose.

Lemma map_seq_ext {A : Type} (F : nat -> A) (l : list A) (d : A) n :
  length l = n -> (forall j, (j < n)%nat -> nth j l d = F j) ->
  l = map F (seq 0 n).
Proof.
  intros Hl Hn. apply (nth_ext _ _ d (F 0%nat)).
  - rewrite length_map, length_seq. exact Hl.
  - intros j Hj. rewrite Hl in Hj. rewrite Hn by exact Hj.
    rewrite (map_nth F), seq_nth by exact Hj. reflexivity.
Qed.

Lemma concat_sorted_perm (L : list (list Z)) :
  Permutation (concat L) (concat (map sorted L)).
Proof.
  induction L as [|c L IH]; simpl; [constructor|].
  apply Permutation_app; [apply sorted_perm | exact IH].
Qed.

Lemma random_sample_ok g data k :
  0 <= k <= len data ->
  exists drawn,
    Pure.random_sample choose g data k =
      (Ok drawn, snd (choose g (length data) (Z.to_nat k))) /\
    len drawn = k /\
    (forall x, In x drawn -> In x data).
Proof.
  intros Hk. unfold Pure.random_sample.
  destruct (Z.ltb_spec k 0); [lia|].
  destruct (Z.ltb_spec (len data) k); [lia|]. simpl.
  destruct (choose_ok g (length data) (Z.to_nat k)) as (Hl & _ & Hr).
  { unfold len in Hk. lia. }
  destruct (choose g (length data) (Z.to_nat k)) as [ps g'] eqn:E. simpl in *.
  eexists. split; [reflexivity|]. split.
  - unfold len. rewrite length_map, Hl. lia.
  - intros x Hx. apply in_map_iff in Hx. destruct Hx as (p & <- & Hp).
    rewrite Forall_forall in Hr. apply nth_In, Hr, Hp.
Qed.

(** Every intermediate value of a call on a non-empty list, in closed
    form. *)
Lemma sort_nonempty_ok g data :
  1 <= len data <= PY_SSIZE_T_MAX ->
  exists l,
    Pure.sort_nonempty choose g data =
      (Ok l, snd (choose g (length data)
                    (Z.to_nat (sample_size (len data))))) /\
    len (Pure.sample l) = sample_size (len data) /\
    StronglySorted Z.le (Pure.sample l) /\
    Pure.bucket_boundaries l =
      map (fun i => nth (Z.to_nat (quantile_index i (num_buckets (len data))
                                     (sample_size (len data))))
                        (Pure.sample l) 0)
          (range 1 (num_buckets (len data))) /\
    StronglySorted Z.le (Pure.bucket_boundaries l) /\
    Pure.buckets l =
      map (fun j => filter (fun x =>
                      Nat.eqb (count_lt (Pure.bucket_boundaries l) x) j) data)
          (seq 0 (Z.to_nat (num_buckets (len data)))) /\
    Pure.sorted_data l = concat (map sorted (Pure.buckets l)).
Proof.
  intros Hn. unfold Pure.sort_nonempty.
  set (n := len data) in *.
  pose proof (num_buckets_bounds n Hn) as Hnb.
  pose proof (sample_size_bounds n ltac:(lia)) as Hss.
  set (nb := num_buckets n) in *. set (ss := sample_size n) in *.
  destruct (random_sample_ok g data ss ltac:(lia)) as (drawn & -> & Hlen & _).
  set (smp := sorted drawn).
  assert (Hsl : len smp = ss) by (unfold smp, len; rewrite sorted_length; exact Hlen).
  assert (Hss' : StronglySorted Z.le smp) by apply sorted_sorted.
  assert (Hidx : forall i, In i (range 1 nb) -> 0 <= quantile_index i nb ss < len smp).
  { intros i Hi. apply range_In in Hi. rewrite Hsl.
    apply quantile_index_valid; [exact Hn | exact Hi]. }
  unfold Pure.boundaries. rewrite (boundaries_loop_ok _ _ _ _ _ Hidx). simpl.
  set (bs := map (fun i => nth (Z.to_nat (quantile_index i nb ss)) smp 0) (range 1 nb)).
  assert (Hbs : StronglySorted Z.le bs).
  { apply map_sorted; [apply range_sorted|].
    intros i j Hi Hj Hij. apply StronglySorted_nth; [exact Hss'|].
    pose proof (Hidx i Hi). pose proof (Hidx j Hj).
    pose proof (Binary64Facts.quantile_index_mono i j nb ss ltac:(lia) Hij).
    unfold len in *. lia. }
  assert (Hbl : length bs = Z.to_nat (nb - 1)).
  { unfold bs. rewrite length_map, range_length. reflexivity. }
  destruct (assign_loop_ok bs data (repeat [] (Z.to_nat nb))) as (res & -> & Hrl & Hrn).
  { intros x _. rewrite repeat_length, bisect_left_count by exact Hbs.
    pose proof (count_lt_le_length bs x). lia. }
  simpl. eexists. split; [reflexivity|]. simpl.
  repeat split; try assumption.
  - rewrite repeat_length in Hrl.
    apply (map_seq_ext _ _ []); [exact Hrl|].
    intros j Hj. rewrite Hrn, nth_repeat. simpl.
    apply filter_ext. intros x. rewrite bisect_left_count by exact Hbs. reflexivity.
  - apply extend_loop_concat.
Qed.

(** The result is the ascending rearrangement of the input. *)
Lemma sort_nonempty_sorted_perm g data :
  1 <= len data <= PY_SSIZE_T_MAX ->
  exists l g', Pure.sort_nonempty choose g data = (Ok l, g') /\
    Permutation data (Pure.sorted_data l) /\
    StronglySorted Z.le (Pure.sorted_data l).
Proof.
  intros Hn.
  destruct (sort_nonempty_ok g data Hn) as (l & Hr & _ & _ & Hb & Hbs & Hk & Hd).
  pose proof (num_buckets_bounds _ Hn) as Hnb.
  exists l. eexists. split; [exact Hr|].
  assert (Hbl : length (Pure.bucket_boundaries l) = Z.to_nat (num_buckets (len data) - 1)).
  { rewrite Hb, length_map, range_length. reflexivity. }
  rewrite Hd, Hk. split.
  - rewrite <- concat_sorted_perm. apply classes_perm.
    intros x _. pose proof (count_lt_le_length (Pure.bucket_boundaries l) x). lia.
  - apply classes_sorted. intros x y _ _ Hxy.
    destruct (Z.le_gt_cases x y) as [Hle|Hgt]; [exact Hle|].
    pose proof (count_lt_mono (Pure.bucket_boundaries l) y x ltac:(lia)). lia.
Qed.

End PureFacts.

(* ================================================================== *)
(** * The function over the store: frame and refinement *)
(* ================================================================== *)

Section ImpFacts.

Context {rng : Type}.
Variable choose : rng -> nat -> nat -> list nat * rng.

Lemma mbind_ok {A B : Type} (m : @Imp.M rng A) (k : A -> @Imp.M rng B) (s s1 : @Imp.state rng) a :
  m s = (Ok a, s1) -> Imp.mbind m k s = k a s1.
Proof. intros H. unfold Imp.mbind. rewrite H. reflexivity. Qed.

Lemma mbind_raise {A B : Type} (m : @Imp.M rng A) (k : A -> @Imp.M rng B) (s s1 : @Imp.state rng) e :
  m s = (Raise e, s1) -> Imp.mbind m k s = (Raise e, s1).
Proof. intros H. unfold Imp.mbind. rewrite H. reflexivity. Qed.

(** ** The primitive statements *)

Lemma alloc_spec l (s : @Imp.state rng) :
  exists s', Imp.alloc l s = (Ok (Imp.next s), s') /\
    Imp.next s' = S (Imp.next s) /\ Imp.rand s' = Imp.rand s /\
    Imp.cells s' (Imp.next s) = l /\
    forall a, a <> Imp.next s -> Imp.cells s' a = Imp.cells s a.
Proof.
  eexists. split; [reflexivity|]. simpl. repeat split.
  - rewrite Nat.eqb_refl. reflexivity.
  - intros a Ha. apply Nat.eqb_neq in Ha. rewrite Ha. reflexivity.
Qed.

Lemma store_spec a l (s : @Imp.state rng) :
  exists s', Imp.store a l s = (Ok tt, s') /\
    Imp.next s' = Imp.next s /\ Imp.rand s' = Imp.rand s /\
    Imp.cells s' a = l /\
    forall b, b <> a -> Imp.cells s' b = Imp.cells s b.
Proof.
  eexists. split; [reflexivity|]. simpl. repeat split.
  - rewrite Nat.eqb_refl. reflexivity.
  - intros b Hb. apply Nat.eqb_neq in Hb. rewrite Hb. reflexivity.
Qed.

Lemma list_sort_spec a (s : @Imp.state rng) :
  exists s', Imp.list_sort a s = (Ok tt, s') /\
    Imp.next s' = Imp.next s /\ Imp.rand s' = Imp.rand s /\
    Imp.cells s' a = sorted (Imp.cells s a) /\
    forall b, b <> a -> Imp.cells s' b = Imp.cells s b.
Proof. apply store_spec. Qed.

Lemma list_append_spec a v (s : @Imp.state rng) :
  exists s', Imp.list_append a v s = (Ok tt, s') /\
    Imp.next s' = Imp.next s /\ Imp.rand s' = Imp.rand s /\
    Imp.cells s' a = Imp.cells s a ++ [v] /\
    forall b, b <> a -> Imp.cells s' b = Imp.cells s b.
Proof. apply store_spec. Qed.

Lemma list_extend_spec a b (s : @Imp.state rng) :
  exists s', Imp.list_extend a b s = (Ok tt, s') /\
    Imp.next s' = Imp.next s /\ Imp.rand s' = Imp.rand s /\
    Imp.cells s' a = Imp.cells s a ++ Imp.cells s b /\
    forall c, c <> a -> Imp.cells s' c = Imp.cells s c.
Proof. apply store_spec. Qed.

Lemma py_sorted_spec a (s : @Imp.state rng) :
  exists s', Imp.py_sorted a s = (Ok (Imp.next s), s') /\
    Imp.next s' = S (Imp.next s) /\ Imp.rand s' = Imp.rand s /\
    Imp.cells s' (Imp.next s) = sorted (Imp.cells s a) /\
    forall b, b <> Imp.next s -> Imp.cells s' b = Imp.cells s b.
Proof. apply alloc_spec. Qed.

Lemma subscript_spec a i (s : @Imp.state rng) :
  Imp.subscript a i s =
  match getitem (Imp.cells s a) i with
  | Ok v => (Ok v, s)
  | Raise e => (Raise e, s)
  end.
Proof.
  unfold Imp.subscript, Imp.mbind, Imp.load.
  destruct (getitem (Imp.cells s a) i); reflexivity.
Qed.

Lemma random_sample_spec p k (s : @Imp.state rng) :
  match Pure.random_sample choose (Imp.rand s) (Imp.cells s p) k with
  | (Ok drawn, g') =>
      exists s', Imp.random_sample choose p k s = (Ok (Imp.next s), s') /\
        Imp.next s' = S (Imp.next s) /\ Imp.rand s' = g' /\
        Imp.cells s' (Imp.next s) = drawn /\
        forall a, a <> Imp.next s -> Imp.cells s' a = Imp.cells s a
  | (Raise e, g') =>
      Imp.random_sample choose p k s = (Raise e, s) /\ g' = Imp.rand s
  end.
Proof.
  unfold Pure.random_sample, Imp.random_sample, Imp.mbind, Imp.load.
  destruct ((k <? 0) || (len (Imp.cells s p) <? k)).
  - split; reflexivity.
  - destruct (choose (Imp.rand s) (length (Imp.cells s p)) (Z.to_nat k)) as [ps g'].
    eexists. split; [reflexivity|]. simpl. repeat split.
    + rewrite Nat.eqb_refl. reflexivity.
    + intros a Ha. apply Nat.eqb_neq in Ha. rewrite Ha. reflexivity.
Qed.

Lemma new_buckets_spec n : forall s : @Imp.state rng,
  exists s', Imp.new_buckets n s = (Ok (seq (Imp.next s) n), s') /\
    Imp.next s' = (Imp.next s + n)%nat /\ Imp.rand s' = Imp.rand s /\
    (forall a, (a < Imp.next s)%nat -> Imp.cells s' a = Imp.cells s a) /\
    (forall a, (Imp.next s <= a < Imp.next s + n)%nat -> Imp.cells s' a = []).
Proof.
  induction n as [|n IH]; intros s; simpl.
  - exists s. split; [reflexivity|]. repeat split; intros; try lia.
  - destruct (alloc_spec [] s) as (s1 & E1 & N1 & R1 & C1 & F1).
    rewrite (mbind_ok _ _ _ _ _ E1).
    destruct (IH s1) as (s2 & E2 & N2 & R2 & F2 & Z2).
    rewrite (mbind_ok _ _ _ _ _ E2). rewrite N1.
    exists s2. split; [reflexivity|]. repeat split; try lia; try congruence.
    + intros a Ha. rewrite F2 by lia. apply F1. lia.
    + intros a Ha. destruct (Nat.eq_dec a (Imp.next s)) as [->|Hne].
      * rewrite F2 by lia. exact C1.
      * apply Z2. lia.
Qed.

(** ** The three loops *)

Lemma for_each_cons {A : Type} (x : A) l (body : A -> @Imp.M rng unit) s :
  Imp.for_each (x :: l) body s =
  Imp.mbind (body x) (fun _ => Imp.for_each l body) s.
Proof. reflexivity. Qed.

Lemma boundaries_loop_refines smp_a bb_a nb ss rest : forall (s : @Imp.state rng) acc,
  smp_a <> bb_a -> Imp.cells s bb_a = acc ->
  exists r s',
    Imp.for_each rest (fun i =>
        Imp.mbind (Imp.subscript smp_a (quantile_index i nb ss))
                  (fun v => Imp.list_append bb_a v)) s = (r, s') /\
    Imp.next s' = Imp.next s /\ Imp.rand s' = Imp.rand s /\
    (forall a, a <> bb_a -> Imp.cells s' a = Imp.cells s a) /\
    match Pure.boundaries_loop (Imp.cells s smp_a) nb ss rest acc with
    | Ok bs => r = Ok tt /\ Imp.cells s' bb_a = bs
    | Raise e => r = Raise e
    end.
Proof.
  induction rest as [|i rest IH]; intros s acc Hne Hacc.
  - exists (Ok tt), s. simpl. repeat split; auto.
  - rewrite for_each_cons. cbn [Pure.boundaries_loop].
    destruct (getitem (Imp.cells s smp_a) (quantile_index i nb ss)) as [v|e] eqn:G;
      cbn [bind].
    + destruct (list_append_spec bb_a v s) as (s1 & E1 & N1 & R1 & C1 & F1).
      rewrite (mbind_ok _ _ s s1 tt).
      2:{ unfold Imp.mbind. rewrite subscript_spec, G. exact E1. }
      destruct (IH s1 (acc ++ [v]) Hne) as (r & s2 & E2 & N2 & R2 & F2 & H2).
      { rewrite C1, Hacc. reflexivity. }
      exists r, s2. split; [exact E2|]. repeat split; try congruence.
      * intros a Ha. rewrite F2, F1 by exact Ha. reflexivity.
      * rewrite (F1 smp_a Hne) in H2. exact H2.
    + rewrite (mbind_raise _ _ s s e).
      2:{ unfold Imp.mbind. rewrite subscript_spec, G. reflexivity. }
      exists (Raise e), s. repeat split; auto.
Qed.

Lemma assign_loop_refines bb_a base nbk xs : forall (s : @Imp.state rng) bks,
  ~ (base <= bb_a < base + nbk)%nat ->
  length bks = nbk ->
  (forall j, (j < nbk)%nat -> Imp.cells s (base + j)%nat = nth j bks []) ->
  exists r s',
    Imp.for_each xs (fun x =>
        Imp.mbind (Imp.load bb_a) (fun bb =>
          match nth_error (seq base nbk) (bisect_left bb x) with
          | Some bucket => Imp.list_append bucket x
          | None => Imp.raise IndexError
          end)) s = (r, s') /\
    Imp.next s' = Imp.next s /\ Imp.rand s' = Imp.rand s /\
    (forall a, ~ (base <= a < base + nbk)%nat -> Imp.cells s' a = Imp.cells s a) /\
    match Pure.assign_loop (Imp.cells s bb_a) xs bks with
    | Ok bks' => r = Ok tt /\ length bks' = nbk /\
                 forall j, (j < nbk)%nat -> Imp.cells s' (base + j)%nat = nth j bks' []
    | Raise e => r = Raise e
    end.
Proof.
  induction xs as [|x xs IH]; intros s bks Hbb Hlen Hc.
  - exists (Ok tt), s. simpl. repeat split; auto.
  - rewrite for_each_cons. cbn [Pure.assign_loop].
    set (idx := bisect_left (Imp.cells s bb_a) x).
    destruct (Nat.lt_ge_cases idx nbk) as [Hlt|Hge].
    + assert (E : nth_error (seq base nbk) idx = Some (base + idx)%nat).
      { rewrite nth_error_nth' with (d := 0%nat) by (rewrite length_seq; exact Hlt).
        rewrite seq_nth by exact Hlt. reflexivity. }
      assert (Eb : nth_error bks idx = Some (nth idx bks [])).
      { apply nth_error_nth'. lia. }
      rewrite Eb.
      destruct (list_append_spec (base + idx)%nat x s) as (s1 & E1 & N1 & R1 & C1 & F1).
      rewrite (mbind_ok _ _ s s1 tt).
      2:{ unfold Imp.mbind, Imp.load. fold idx. rewrite E. exact E1. }
      destruct (IH s1 (list_set bks idx (nth idx bks [] ++ [x]))) as (r & s2 & E2 & N2 & R2 & F2 & H2).
      { exact Hbb. }
      { rewrite list_set_length. exact Hlen. }
      { intros j Hj. destruct (Nat.eq_dec idx j) as [<-|Hne].
        - rewrite C1, list_set_nth_eq by lia. rewrite Hc by exact Hlt. reflexivity.
        - rewrite list_set_nth_neq by exact Hne. rewrite F1 by lia. apply Hc, Hj. }
      exists r, s2. split; [exact E2|]. repeat split; try congruence.
      * intros a Ha. rewrite F2 by exact Ha. apply F1. lia.
      * rewrite (F1 bb_a ltac:(lia)) in H2. exact H2.
    + assert (E : nth_error (seq base nbk) idx = None).
      { apply nth_error_None. rewrite length_seq. exact Hge. }
      assert (Eb : nth_error bks idx = None) by (apply nth_error_None; lia).
      rewrite Eb.
      rewrite (mbind_raise _ _ s s IndexError).
      2:{ unfold Imp.mbind, Imp.load. fold idx. rewrite E. reflexivity. }
      exists (Raise IndexError), s. repeat split; auto.
Qed.

Lemma extend_loop_refines sd_a addrs : forall (s : @Imp.state rng) bks,
  (sd_a < Imp.next s)%nat ->
  Forall2 (fun a l => (a < Imp.next s)%nat /\ a <> sd_a /\ Imp.cells s a = l) addrs bks ->
  exists s',
    Imp.for_each addrs (fun bucket =>
        Imp.mbind (Imp.py_sorted bucket) (fun tmp => Imp.list_extend sd_a tmp)) s
      = (Ok tt, s') /\
    (Imp.next s <= Imp.next s')%nat /\ Imp.rand s' = Imp.rand s /\
    (forall a, (a < Imp.next s)%nat -> a <> sd_a -> Imp.cells s' a = Imp.cells s a) /\
    Imp.cells s' sd_a = Pure.extend_loop bks (Imp.cells s sd_a).
Proof.
  induction addrs as [|a addrs IH]; intros s bks Hsd HF; inversion HF; subst.
  - exists s. simpl. repeat split; auto.
  - match goal with H : _ /\ _ /\ _ |- _ => destruct H as (Ha & Hne & Hl) end.
    match goal with H : Forall2 _ addrs _ |- _ => rename H into HF' end.
    rewrite for_each_cons. cbn [Pure.extend_loop].
    destruct (py_sorted_spec a s) as (s1 & E1 & N1 & R1 & C1 & F1).
    destruct (list_extend_spec sd_a (Imp.next s) s1) as (s2 & E2 & N2 & R2 & C2 & F2).
    rewrite (mbind_ok _ _ s s2 tt).
    2:{ unfold Imp.mbind at 1. rewrite E1. exact E2. }
    destruct (IH s2 l') as (s3 & E3 & N3 & R3 & F3 & C3).
    { lia. }
    { eapply Forall2_impl; [|exact HF']. simpl. intros b lb (Hb & Hbne & Hbl).
      repeat split; [lia | exact Hbne |].
      rewrite F2 by exact Hbne. rewrite F1 by lia. exact Hbl. }
    exists s3. split; [exact E3|]. repeat split; try lia; try congruence.
    + intros b Hb Hbne. rewrite F3 by (try lia; exact Hbne).
      rewrite F2 by exact Hbne. apply F1. lia.
    + rewrite C3, C2, C1. rewrite (F1 sd_a ltac:(lia)). rewrite Hl. reflexivity.
Qed.

End ImpFacts.

Section ImpRefinement.

Context {rng : Type}.
Variable choose : rng -> nat -> nat -> list nat * rng.

Lemma load_spec a (s : @Imp.state rng) : Imp.load a s = (Ok (Imp.cells s a), s).
Proof. reflexivity. Qed.

Lemma Forall2_seq {A : Type} (P : nat -> A -> Prop) (d : A) l : forall base,
  (forall j, (j < length l)%nat -> P (base + j)%nat (nth j l d)) ->
  Forall2 P (seq base (length l)) l.
Proof.
  induction l as [|x l IH]; intros base H; simpl; constructor.
  - specialize (H 0%nat ltac:(simpl; lia)). rewrite Nat.add_0_r in H. exact H.
  - apply IH. intros j Hj. specialize (H (S j) ltac:(simpl; lia)).
    rewrite Nat.add_succ_r in H. exact H.
Qed.

(** One call on a non-empty list: the statements over the store compute
    what the function on list values computes, in new objects, and leave
    every object that existed before the call as it was.  This holds for
    every outcome, an exception included. *)
Lemma sort_nonempty_refines (s : @Imp.state rng) data :
  (data < Imp.next s)%nat ->
  exists r s',
    Imp.sort_nonempty choose data (len (Imp.cells s data)) s = (r, s') /\
    (Imp.next s <= Imp.next s')%nat /\
    (forall a, (a < Imp.next s)%nat -> Imp.cells s' a = Imp.cells s a) /\
    match Pure.sort_nonempty choose (Imp.rand s) (Imp.cells s data) with
    | (Ok l, g') =>
        exists bb sd, r = Ok (bb, sd) /\
          (Imp.next s <= bb)%nat /\ (Imp.next s <= sd)%nat /\
          Imp.cells s' bb = Pure.bucket_boundaries l /\
          Imp.cells s' sd = Pure.sorted_data l /\
          Imp.rand s' = g'
    | (Raise e, g') => r = Raise e /\ Imp.rand s' = g'
    end.
Proof.
  intros Hdata. unfold Imp.sort_nonempty, Pure.sort_nonempty.
  set (xs := Imp.cells s data).
  set (nb := num_buckets (len xs)). set (ss := sample_size (len xs)).
  pose proof (random_sample_spec choose data ss s) as Hrs. fold xs in Hrs.
  destruct (Pure.random_sample choose (Imp.rand s) xs ss) as [[drawn|e] g'].
  2:{ destruct Hrs as [E ->]. rewrite (mbind_raise _ _ _ _ _ E).
      exists (Raise e), s. repeat split; auto. }
  destruct Hrs as (s1 & E1 & N1 & R1 & C1 & F1).
  rewrite (mbind_ok _ _ _ _ _ E1).
  destruct (list_sort_spec (Imp.next s) s1) as (s2 & E2 & N2 & R2 & C2 & F2).
  rewrite (mbind_ok _ _ _ _ _ E2).
  destruct (alloc_spec [] s2) as (s3 & E3 & N3 & R3 & C3 & F3).
  rewrite (mbind_ok _ _ _ _ _ E3).
  set (smp_a := Imp.next s) in *. set (bb_a := Imp.next s2) in *.
  assert (Hbb : bb_a = S smp_a) by (unfold bb_a, smp_a in *; congruence).
  assert (Hsmp : Imp.cells s3 smp_a = sorted drawn).
  { rewrite F3 by lia. rewrite C2, C1. reflexivity. }
  assert (G3 : forall a, (a < smp_a)%nat -> Imp.cells s3 a = Imp.cells s a).
  { intros a Ha. rewrite F3, F2, F1 by lia. reflexivity. }
  destruct (boundaries_loop_refines smp_a bb_a nb ss (range 1 nb) s3 [])
    as (r4 & s4 & E4 & N4 & R4 & F4 & H4); [lia | exact C3 |].
  rewrite Hsmp in H4. unfold Pure.boundaries.
  assert (G4 : forall a, (a < smp_a)%nat -> Imp.cells s4 a = Imp.cells s a).
  { intros a Ha. rewrite F4 by lia. apply G3, Ha. }
  destruct (Pure.boundaries_loop (sorted drawn) nb ss (range 1 nb) []) as [bs|e];
    cbn [bind].
  2:{ subst r4. rewrite (mbind_raise _ _ _ _ _ E4).
      exists (Raise e), s4. repeat split; [lia | exact G4 | congruence]. }
  destruct H4 as [-> Hbs]. rewrite (mbind_ok _ _ _ _ _ E4).
  destruct (new_buckets_spec (Z.to_nat nb) s4) as (s5 & E5 & N5 & R5 & F5 & Z5).
  rewrite (mbind_ok _ _ _ _ _ E5).
  rewrite (mbind_ok _ _ _ _ _ (load_spec data s5)).
  set (base := Imp.next s4) in *. set (nbk := Z.to_nat nb) in *.
  assert (Hbase : base = S (S smp_a)) by (unfold base, bb_a, smp_a in *; congruence).
  assert (Hxs : Imp.cells s5 data = xs).
  { rewrite F5 by lia. apply G4. exact Hdata. }
  rewrite Hxs.
  destruct (assign_loop_refines bb_a base nbk xs s5 (repeat [] nbk))
    as (r6 & s6 & E6 & N6 & R6 & F6 & H6).
  { lia. }
  { apply repeat_length. }
  { intros j Hj. rewrite Z5 by lia. rewrite nth_repeat. reflexivity. }
  assert (Hbb5 : Imp.cells s5 bb_a = bs) by (rewrite F5 by lia; exact Hbs).
  rewrite Hbb5 in H6.
  assert (G6 : forall a, (a < base)%nat -> Imp.cells s6 a = Imp.cells s4 a).
  { intros a Ha. rewrite F6 by lia. apply F5, Ha. }
  destruct (Pure.assign_loop bs xs (repeat [] nbk)) as [bks|e]; cbn [bind].
  2:{ subst r6. rewrite (mbind_raise _ _ _ _ _ E6).
      exists (Raise e), s6. repeat split; [lia | | congruence].
      intros a Ha. rewrite G6 by lia. apply G4, Ha. }
  destruct H6 as (-> & Hlen & Hbk). rewrite (mbind_ok _ _ _ _ _ E6).
  destruct (alloc_spec [] s6) as (s7 & E7 & N7 & R7 & C7 & F7).
  rewrite (mbind_ok _ _ _ _ _ E7).
  set (sd_a := Imp.next s6) in *.
  assert (Hsd : sd_a = (base + nbk)%nat) by (unfold sd_a, base, bb_a, smp_a in *; congruence).
  destruct (extend_loop_refines sd_a (seq base nbk) s7 bks)
    as (s8 & E8 & N8 & R8 & F8 & C8).
  { lia. }
  { rewrite <- Hlen. apply (Forall2_seq _ []). intros j Hj.
    repeat split; [lia | lia |]. rewrite F7 by lia. apply Hbk. lia. }
  rewrite (mbind_ok _ _ _ _ _ E8). unfold Imp.ret.
  exists (Ok (bb_a, sd_a)), s8. split; [reflexivity|].
  split; [lia|]. split.
  { intros a Ha. rewrite F8, F7 by lia. rewrite G6 by lia. apply G4, Ha. }
  exists bb_a, sd_a. cbn [Pure.bucket_boundaries Pure.sorted_data].
  repeat split; try lia.
  - rewrite F8, F7 by lia. rewrite G6 by lia. exact Hbs.
  - rewrite C8, C7. reflexivity.
  - congruence.
Qed.

(** The whole function.  On an empty list it returns the reference it was
    given; otherwise it returns a reference to a new list. *)
Lemma bucket_sort_refines (s : @Imp.state rng) data :
  (data < Imp.next s)%nat ->
  exists r s',
    Imp.bucket_sort_quantile_based choose data s = (r, s') /\
    (forall a, (a < Imp.next s)%nat -> Imp.cells s' a = Imp.cells s a) /\
    match Pure.bucket_sort_quantile_based choose (Imp.rand s) (Imp.cells s data) with
    | (Ok out, g') =>
        exists a, r = Ok a /\ Imp.cells s' a = out /\ Imp.rand s' = g'
    | (Raise e, g') => r = Raise e /\ Imp.rand s' = g'
    end.
Proof.
  intros Hdata.
  unfold Imp.bucket_sort_quantile_based, Pure.bucket_sort_quantile_based.
  rewrite (mbind_ok _ _ _ _ _ (load_spec data s)).
  destruct (len (Imp.cells s data) =? 0).
  - exists (Ok data), s. split; [reflexivity|]. split; [reflexivity|].
    exists data. auto.
  - destruct (sort_nonempty_refines s data Hdata) as (r & s' & E & N & F & H).
    destruct (Pure.sort_nonempty choose (Imp.rand s) (Imp.cells s data)) as [[l|e] g'].
    + destruct H as (bb & sd & -> & _ & _ & _ & Hsd & Hr).
      rewrite (mbind_ok _ _ _ _ _ E). unfold Imp.ret. simpl.
      exists (Ok sd), s'. split; [reflexivity|]. split; [exact F|].
      exists sd. auto.
    + destruct H as [-> Hr]. rewrite (mbind_raise _ _ _ _ _ E).
      exists (Raise e), s'. auto.
Qed.

End ImpRefinement.

(* ================================================================== *)
(** * The samplers used as examples *)
(* ================================================================== *)

Lemma first_k_ok : sampler_ok first_k.
Proof.
  intros g n k Hk. simpl. repeat split.
  - apply length_seq.
  - apply seq_NoDup.
  - apply Forall_forall. intros p Hp. apply in_seq in Hp. lia.
Qed.

Lemma window_ok : sampler_ok window.
Proof.
  intros g n k Hk. simpl. repeat split.
  - apply length_seq.
  - apply seq_NoDup.
  - apply Forall_forall. intros p Hp. apply in_seq in Hp.
    pose proof (Nat.mod_upper_bound g (n - k + 1) ltac:(lia)). lia.
Qed.

(* ================================================================== *)
(** * The properties of the specification *)
(* ================================================================== *)

(** C1.  For every list of integers that Python can hold, the function
    returns a list that is a permutation of the input and is in
    non-decreasing order: [out[i] <= out[i+1]] for every [i]. *)
Theorem bucket_sort_sorted_permutation {rng : Type}
  (choose : rng -> nat -> nat -> list nat * rng) (g : rng) (data : list Z) :
  sampler_ok choose ->
  len data <= PY_SSIZE_T_MAX ->
  exists out,
    fst (Pure.bucket_sort_quantile_based choose g data) = Ok out /\
    Permutation data out /\
    forall i, (S i < length out)%nat -> nth i out 0 <= nth (S i) out 0.
Proof.
  intros Hc Hn. unfold Pure.bucket_sort_quantile_based.
  destruct (Z.eqb_spec (len data) 0) as [E|NE].
  - exists data. split; [reflexivity|]. split; [reflexivity|].
    intros i Hi. destruct data; [simpl in Hi; lia | discriminate E].
  - assert (H1 : 1 <= len data <= PY_SSIZE_T_MAX) by (unfold len in *; lia).
    destruct (sort_nonempty_sorted_perm choose Hc g data H1) as (l & g' & -> & Hp & Hs).
    exists (Pure.sorted_data l). split; [reflexivity|]. split; [exact Hp|].
    intros i Hi. apply StronglySorted_nth; [exact Hs | lia].
Qed.

(** The first scenario of the specification, with the sampler that takes
    the first positions. *)
Lemma bucket_sort_sorted_permutation_witness :
  sampler_ok first_k /\
  len [5; 3; 1; 4; 2] <= PY_SSIZE_T_MAX /\
  exists out,
    fst (Pure.bucket_sort_quantile_based first_k tt [5; 3; 1; 4; 2]) = Ok out /\
    Permutation [5; 3; 1; 4; 2] out /\
    forall i, (S i < length out)%nat -> nth i out 0 <= nth (S i) out 0.
Proof.
  split; [exact first_k_ok|]. split; [vm_compute; discriminate|].
  apply (bucket_sort_sorted_permutation first_k tt [5; 3; 1; 4; 2]).
  - exact first_k_ok.
  - vm_compute; discriminate.
Defined.

(** C2, as stated, fails: for a list of 100090 elements the sample has
    1000 elements, where rounding [0.01 * n] to the nearest integer gives
    1001. *)
Lemma sample_size_is_not_rounded :
  exists drawn,
    fst (Pure.random_sample first_k tt (repeat 7 (Z.to_nat 100090))
           (sample_size (len (repeat 7 (Z.to_nat 100090))))) = Ok drawn /\
    len drawn = 1000 /\
    claimed_sample_size (len (repeat 7 (Z.to_nat 100090))) = 1001 /\
    len drawn <> claimed_sample_size (len (repeat 7 (Z.to_nat 100090))).
Proof.
  eexists. split; [vm_compute; reflexivity|].
  split; [vm_compute; reflexivity|].
  split; [vm_compute; reflexivity|].
  vm_compute. discriminate.
Qed.

(** C2, amended.  For every non-empty input of size [n < 2^52] the sample
    has exactly [min(n, max(1000, floor(n / 100)))] elements: [int(n * 0.01)]
    truncates. *)
Theorem sample_has_truncated_size {rng : Type}
  (choose : rng -> nat -> nat -> list nat * rng) (g : rng) (data : list Z) :
  sampler_ok choose ->
  0 < len data < 2 ^ 52 ->
  exists drawn,
    fst (Pure.random_sample choose g data (sample_size (len data))) = Ok drawn /\
    len drawn = Z.min (len data) (Z.max 1000 (len data / 100)).
Proof.
  intros Hc Hn.
  pose proof (sample_size_bounds (len data) ltac:(lia)) as Hs.
  destruct (random_sample_ok choose Hc g data (sample_size (len data)) ltac:(lia))
    as (drawn & -> & Hl & _).
  exists drawn. split; [reflexivity|].
  rewrite Hl. apply sample_size_percent. lia.
Qed.

(** Five elements: the whole list is sampled. *)
Lemma sample_has_truncated_size_witness :
  sampler_ok first_k /\
  0 < len [5; 3; 1; 4; 2] < 2 ^ 52 /\
  exists drawn,
    fst (Pure.random_sample first_k tt [5; 3; 1; 4; 2]
           (sample_size (len [5; 3; 1; 4; 2]))) = Ok drawn /\
    len drawn = Z.min (len [5; 3; 1; 4; 2])
                      (Z.max 1000 (len [5; 3; 1; 4; 2] / 100)).
Proof.
  split; [exact first_k_ok|]. split; [vm_compute; split; reflexivity|].
  apply (sample_has_truncated_size first_k tt [5; 3; 1; 4; 2]).
  - exact first_k_ok.
  - vm_compute; split; reflexivity.
Defined.

(** C3, as stated, fails: for the sorted sample [0, 1, ..., 289] and 17
    buckets the boundary for [i = 13] is the sample entry 220, where
    [floor((13/17) * 289) = 221]. *)
Lemma boundary_index_below_floor :
  exists bs,
    Pure.boundaries (range 0 290) 17 290 = Ok bs /\
    nth 12 bs 0 = 220 /\
    nth (Z.to_nat (13 * (290 - 1) / 17)) (range 0 290) 0 = 221 /\
    nth 12 bs 0 <> nth (Z.to_nat (13 * (290 - 1) / 17)) (range 0 290) 0.
Proof.
  eexists. split; [vm_compute; reflexivity|].
  split; [vm_compute; reflexivity|].
  split; [vm_compute; reflexivity|].
  vm_compute. discriminate.
Qed.

(** C3, amended.  For every sample of size [s >= 1] and bucket count
    [b >= 1] with [b * s <= 2^51], the loop produces [b - 1] boundaries,
    boundary [i] being the sample entry at the index
    [int((i / b) * (s - 1))] computed in double precision; that index is
    [floor(i * (s - 1) / b)] or one less.  For [b = 1] there is no
    boundary. *)
Theorem boundaries_quantile_index (smp : list Z) (b : Z) :
  1 <= len smp -> 1 <= b -> b * len smp <= 2 ^ 51 ->
  exists bs,
    Pure.boundaries smp b (len smp) = Ok bs /\
    len bs = b - 1 /\
    (b = 1 -> bs = []) /\
    forall i, 1 <= i <= b - 1 ->
      let index := quantile_index i b (len smp) in
      nth (Z.to_nat (i - 1)) bs 0 = nth (Z.to_nat index) smp 0 /\
      0 <= index < len smp /\
      i * (len smp - 1) / b - 1 <= index <= i * (len smp - 1) / b.
Proof.
  intros Hs Hb Hbs. set (s := len smp) in *.
  assert (Hbr : forall i, 1 <= i <= b - 1 ->
            i * (s - 1) / b - 1 <= quantile_index i b s <= i * (s - 1) / b).
  { intros i Hi. apply Binary64Facts.quantile_index_bracket; lia. }
  assert (Hin : forall i, 1 <= i <= b - 1 -> 0 <= quantile_index i b s < s).
  { intros i Hi. pose proof (Hbr i Hi) as [_ Hu].
    pose proof (Binary64Facts.quantile_index_nonneg i b s).
    assert (i * (s - 1) / b <= s - 1).
    { apply Z.div_le_upper_bound; [lia|]. nia. }
    lia. }
  unfold Pure.boundaries. rewrite boundaries_loop_ok.
  2:{ intros i Hi. apply range_In in Hi. apply Hin. lia. }
  eexists. split; [reflexivity|]. simpl app.
  split; [|split].
  - unfold len. rewrite length_map, range_length. lia.
  - intros ->. reflexivity.
  - intros i Hi. cbv zeta. split; [|split; [apply Hin, Hi | apply Hbr, Hi]].
    set (F := fun i => nth (Z.to_nat (quantile_index i b s)) smp 0).
    rewrite (nth_indep _ 0 (F 0)) by (rewrite length_map, range_length; lia).
    rewrite (map_nth F), range_nth by lia.
    unfold F. repeat f_equal. lia.
Qed.

(** The sorted sample of the first scenario and two buckets. *)
Lemma boundaries_quantile_index_witness :
  1 <= len [1; 2; 3; 4; 5] /\ 1 <= 2 /\ 2 * len [1; 2; 3; 4; 5] <= 2 ^ 51 /\
  exists bs,
    Pure.boundaries [1; 2; 3; 4; 5] 2 (len [1; 2; 3; 4; 5]) = Ok bs /\
    len bs = 2 - 1 /\
    (2 = 1 -> bs = []) /\
    forall i, 1 <= i <= 2 - 1 ->
      let index := quantile_index i 2 (len [1; 2; 3; 4; 5]) in
      nth (Z.to_nat (i - 1)) bs 0 = nth (Z.to_nat index) [1; 2; 3; 4; 5] 0 /\
      0 <= index < len [1; 2; 3; 4; 5] /\
      i * (len [1; 2; 3; 4; 5] - 1) / 2 - 1 <= index
        <= i * (len [1; 2; 3; 4; 5] - 1) / 2.
Proof.
  split; [vm_compute; discriminate|]. split; [lia|].
  split; [vm_compute; discriminate|].
  apply (boundaries_quantile_index [1; 2; 3; 4; 5] 2).
  - vm_compute; discriminate.
  - lia.
  - vm_compute; discriminate.
Defined.

(** The bound [2^52] of the next theorem is far beyond any list that fits
    in memory, and it cannot be dropped altogether: for the number
    [2^52 + 2^27 = (2^26 + 1)^2 - 1] the double-precision square root
    rounds up to [2^26 + 1], one more than the integer square root. *)
Lemma num_buckets_above_isqrt :
  num_buckets 4503599761588224 = 67108865 /\
  Z.max 1 (Z.sqrt 4503599761588224) = 67108864 /\
  num_buckets 4503599761588224 <> Z.max 1 (Z.sqrt 4503599761588224).
Proof.
  split; [vm_compute; reflexivity|].
  split; [vm_compute; reflexivity|].
  vm_compute. discriminate.
Qed.

(** C4.  For every non-empty input of size [n < 2^52], which is every
    list that can exist in memory, the number of buckets is
    [max(1, isqrt(n))], the exact integer square root, and the call creates
    that many buckets. *)
Theorem num_buckets_is_isqrt {rng : Type}
  (choose : rng -> nat -> nat -> list nat * rng) (g : rng) (data : list Z) :
  sampler_ok choose ->
  0 < len data < 2 ^ 52 ->
  num_buckets (len data) = Z.max 1 (Z.sqrt (len data)) /\
  exists l g', Pure.sort_nonempty choose g data = (Ok l, g') /\
    len (Pure.buckets l) = Z.max 1 (Z.sqrt (len data)).
Proof.
  intros Hc Hn.
  assert (E : num_buckets (len data) = Z.max 1 (Z.sqrt (len data))).
  { apply num_buckets_isqrt. lia. }
  split; [exact E|].
  assert (H1 : 1 <= len data <= PY_SSIZE_T_MAX) by (unfold PY_SSIZE_T_MAX; lia).
  destruct (sort_nonempty_ok choose Hc g data H1) as (l & Hr & _ & _ & _ & _ & Hk & _).
  exists l. eexists. split; [exact Hr|].
  rewrite <- E, Hk. pose proof (num_buckets_bounds _ H1).
  unfold len at 1. rewrite length_map, length_seq. lia.
Qed.

(** Five elements: two buckets. *)
Lemma num_buckets_is_isqrt_witness :
  sampler_ok first_k /\
  0 < len [5; 3; 1; 4; 2] < 2 ^ 52 /\
  num_buckets (len [5; 3; 1; 4; 2]) = Z.max 1 (Z.sqrt (len [5; 3; 1; 4; 2])) /\
  exists l g', Pure.sort_nonempty first_k tt [5; 3; 1; 4; 2] = (Ok l, g') /\
    len (Pure.buckets l) = Z.max 1 (Z.sqrt (len [5; 3; 1; 4; 2])).
Proof.
  split; [exact first_k_ok|]. split; [vm_compute; split; reflexivity|].
  apply (num_buckets_is_isqrt first_k tt [5; 3; 1; 4; 2]).
  - exact first_k_ok.
  - vm_compute; split; reflexivity.
Defined.

(** C5.  In a call on a non-empty list, the index that line 38 computes
    for [x] is the number of boundaries strictly below [x], which is the
    leftmost insertion point of [x]; bucket [j] holds exactly the elements
    with that index; an element equal to boundary [j] goes to a bucket of
    index at most [j]; with a single bucket every index is 0. *)
Theorem bucket_index_counts_smaller_boundaries {rng : Type}
  (choose : rng -> nat -> nat -> list nat * rng) (g : rng) (data : list Z) :
  sampler_ok choose ->
  1 <= len data <= PY_SSIZE_T_MAX ->
  exists l g', Pure.sort_nonempty choose g data = (Ok l, g') /\
    let bs := Pure.bucket_boundaries l in
    (forall x, bisect_left bs x = count_lt bs x) /\
    (forall x j, In x (nth j (Pure.buckets l) []) <->
                 In x data /\ j = count_lt bs x) /\
    (forall x j, (j < count_lt bs x)%nat -> nth j bs 0 < x) /\
    (forall x j, (count_lt bs x <= j < length bs)%nat -> x <= nth j bs 0) /\
    (forall j, (j < length bs)%nat -> (count_lt bs (nth j bs 0%Z) <= j)%nat) /\
    (num_buckets (len data) = 1 -> forall x, count_lt bs x = 0%nat).
Proof.
  intros Hc Hn.
  destruct (sort_nonempty_ok choose Hc g data Hn) as (l & Hr & _ & _ & Hb & Hbs & Hk & _).
  pose proof (num_buckets_bounds _ Hn) as Hnb.
  exists l. eexists. split; [exact Hr|]. cbv zeta.
  assert (Hbl : length (Pure.bucket_boundaries l)
                = Z.to_nat (num_buckets (len data) - 1)).
  { rewrite Hb, length_map, range_length. reflexivity. }
  set (bs := Pure.bucket_boundaries l) in *.
  assert (Hins : forall x,
            (forall j, (j < count_lt bs x)%nat -> nth j bs 0 < x) /\
            (forall j, (count_lt bs x <= j < length bs)%nat -> x <= nth j bs 0)).
  { intros x. rewrite <- (bisect_left_count bs x Hbs). unfold bisect_left.
    destruct (bisect_loop_spec bs x Hbs 0 (length bs)) as (_ & H2 & H3);
      [lia | intros; lia | intros; lia |].
    split; assumption. }
  split; [intros x; apply bisect_left_count, Hbs|].
  split; [|split; [|split; [|split]]].
  - intros x j. rewrite Hk.
    destruct (Nat.lt_ge_cases j (Z.to_nat (num_buckets (len data)))) as [Hj|Hj].
    + set (F := fun j => filter (fun x => Nat.eqb (count_lt bs x) j) data).
      rewrite (nth_indep _ [] (F 0%nat)) by (rewrite length_map, length_seq; exact Hj).
      rewrite (map_nth F), seq_nth by exact Hj. unfold F. simpl.
      rewrite filter_In, Nat.eqb_eq. intuition congruence.
    + rewrite nth_overflow by (rewrite length_map, length_seq; exact Hj).
      split; [intros []|]. intros [_ ->].
      pose proof (count_lt_le_length bs x). lia.
  - intros x j. apply Hins.
  - intros x j. apply Hins.
  - intros j Hj. apply Nat.nlt_ge. intros Hlt.
    pose proof (proj1 (Hins (nth j bs 0)) j Hlt). lia.
  - intros H1 x. pose proof (count_lt_le_length bs x). lia.
Qed.

(** The second scenario of the specification: every element equals the
    only boundary. *)
Lemma bucket_index_counts_smaller_boundaries_witness :
  sampler_ok first_k /\
  1 <= len [2; 2; 2; 2] <= PY_SSIZE_T_MAX /\
  exists l g', Pure.sort_nonempty first_k tt [2; 2; 2; 2] = (Ok l, g') /\
    let bs := Pure.bucket_boundaries l in
    (forall x, bisect_left bs x = count_lt bs x) /\
    (forall x j, In x (nth j (Pure.buckets l) []) <->
                 In x [2; 2; 2; 2] /\ j = count_lt bs x) /\
    (forall x j, (j < count_lt bs x)%nat -> nth j bs 0 < x) /\
    (forall x j, (count_lt bs x <= j < length bs)%nat -> x <= nth j bs 0) /\
    (forall j, (j < length bs)%nat -> (count_lt bs (nth j bs 0%Z) <= j)%nat) /\
    (num_buckets (len [2; 2; 2; 2]) = 1 -> forall x, count_lt bs x = 0%nat).
Proof.
  split; [exact first_k_ok|].
  split; [vm_compute; split; discriminate|].
  apply (bucket_index_counts_smaller_boundaries first_k tt [2; 2; 2; 2]).
  - exact first_k_ok.
  - vm_compute; split; discriminate.
Defined.

(** C6.  In a call on a non-empty list the boundary sequence is
    non-decreasing and has [num_buckets - 1] entries. *)
Theorem boundaries_nondecreasing {rng : Type}
  (choose : rng -> nat -> nat -> list nat * rng) (g : rng) (data : list Z) :
  sampler_ok choose ->
  1 <= len data <= PY_SSIZE_T_MAX ->
  exists l g', Pure.sort_nonempty choose g data = (Ok l, g') /\
    len (Pure.bucket_boundaries l) = num_buckets (len data) - 1 /\
    forall i j, (i <= j < length (Pure.bucket_boundaries l))%nat ->
      nth i (Pure.bucket_boundaries l) 0 <= nth j (Pure.bucket_boundaries l) 0.
Proof.
  intros Hc Hn.
  destruct (sort_nonempty_ok choose Hc g data Hn) as (l & Hr & _ & _ & Hb & Hbs & _).
  pose proof (num_buckets_bounds _ Hn) as Hnb.
  exists l. eexists. split; [exact Hr|]. split.
  - rewrite Hb. unfold len at 1. rewrite length_map, range_length. lia.
  - apply StronglySorted_nth, Hbs.
Qed.

(** Eighteen elements, four buckets, the sampler driven by a counter. *)
Lemma boundaries_nondecreasing_witness :
  sampler_ok window /\
  1 <= len [9; 8; 7; 6; 5; 4; 3; 2; 1; 0; 11; 12; 13; 14; 15; 16; 17; 10]
    <= PY_SSIZE_T_MAX /\
  exists l g',
    Pure.sort_nonempty window 3%nat
      [9; 8; 7; 6; 5; 4; 3; 2; 1; 0; 11; 12; 13; 14; 15; 16; 17; 10] = (Ok l, g') /\
    len (Pure.bucket_boundaries l) =
      num_buckets
        (len [9; 8; 7; 6; 5; 4; 3; 2; 1; 0; 11; 12; 13; 14; 15; 16; 17; 10]) - 1 /\
    forall i j, (i <= j < length (Pure.bucket_boundaries l))%nat ->
      nth i (Pure.bucket_boundaries l) 0 <= nth j (Pure.bucket_boundaries l) 0.
Proof.
  split; [exact window_ok|].
  split; [vm_compute; split; discriminate|].
  apply (boundaries_nondecreasing window 3%nat
           [9; 8; 7; 6; 5; 4; 3; 2; 1; 0; 11; 12; 13; 14; 15; 16; 17; 10]).
  - exact window_ok.
  - vm_compute; split; discriminate.
Defined.

(** C7.  On the empty list the function returns the empty list at once,
    whatever the sampler, and leaves the generator as it was; on a
    one-element list it returns that list. *)
Theorem empty_and_singleton {rng : Type}
  (choose : rng -> nat -> nat -> list nat * rng) (g : rng) :
  Pure.bucket_sort_quantile_based choose g [] = (Ok [], g) /\
  forall x, fst (Pure.bucket_sort_quantile_based choose g [x]) = Ok [x].
Proof.
  split; [reflexivity|]. intros x.
  assert (Hnb : num_buckets 1 = 1) by (vm_compute; reflexivity).
  assert (Hss : sample_size 1 = 1) by (vm_compute; reflexivity).
  assert (Hbl : bisect_left [] x = 0%nat) by reflexivity.
  unfold Pure.bucket_sort_quantile_based, Pure.sort_nonempty.
  change (len [x]) with 1. rewrite Hnb, Hss.
  unfold Pure.random_sample. change (len [x]) with 1.
  change ((1 <? 0) || (1 <? 1)) with false. cbv iota.
  destruct (choose g (length [x]) (Z.to_nat 1)) as [ps g'].
  unfold Pure.boundaries. change (range 1 1) with (@nil Z).
  cbn [Pure.boundaries_loop bind Pure.assign_loop Z.to_nat Pos.to_nat
       Pos.iter_op repeat Nat.add].
  rewrite Hbl. reflexivity.
Qed.

(** The caller's view of a run over the store is the function on list
    values. *)
Lemma observe_bucket_sort {rng : Type}
  (choose : rng -> nat -> nat -> list nat * rng) (s : Imp.state) data :
  (data < Imp.next s)%nat ->
  observe (Imp.bucket_sort_quantile_based choose data s) =
  Pure.bucket_sort_quantile_based choose (Imp.rand s) (Imp.cells s data).
Proof.
  intros Hd.
  destruct (bucket_sort_refines choose s data Hd) as (r & s' & -> & _ & H).
  destruct (Pure.bucket_sort_quantile_based choose (Imp.rand s) (Imp.cells s data))
    as [[out|e] g'].
  - destruct H as (a & -> & <- & <-). reflexivity.
  - destruct H as (-> & <-). reflexivity.
Qed.

Lemma observe_sort_nonempty {rng : Type}
  (choose : rng -> nat -> nat -> list nat * rng) (s : Imp.state) data :
  (data < Imp.next s)%nat ->
  observe_locals (Imp.sort_nonempty choose data (len (Imp.cells s data)) s) =
  match Pure.sort_nonempty choose (Imp.rand s) (Imp.cells s data) with
  | (Ok l, g') => (Ok (Pure.bucket_boundaries l, Pure.sorted_data l), g')
  | (Raise e, g') => (Raise e, g')
  end.
Proof.
  intros Hd.
  destruct (sort_nonempty_refines choose s data Hd) as (r & s' & -> & _ & _ & H).
  destruct (Pure.sort_nonempty choose (Imp.rand s) (Imp.cells s data))
    as [[l|e] g'].
  - destruct H as (bb & sd & -> & _ & _ & <- & <- & <-). reflexivity.
  - destruct H as (-> & <-). reflexivity.
Qed.

(** C8.  A call changes no list object that existed before it, the input
    list in particular, whether it returns or raises. *)
Theorem input_list_not_mutated {rng : Type}
  (choose : rng -> nat -> nat -> list nat * rng) (s : Imp.state)
  (data : Imp.addr) :
  (data < Imp.next s)%nat ->
  let s' := snd (Imp.bucket_sort_quantile_based choose data s) in
  Imp.cells s' data = Imp.cells s data /\
  forall a, (a < Imp.next s)%nat -> Imp.cells s' a = Imp.cells s a.
Proof.
  intros Hd.
  destruct (bucket_sort_refines choose s data Hd) as (r & s' & -> & F & _).
  simpl. split; [apply F, Hd | exact F].
Qed.

(** The first scenario, with the input list as the only object of the
    store. *)
Lemma input_list_not_mutated_witness :
  (0 < Imp.next (store_of scenario_1 tt))%nat /\
  let s' := snd (Imp.bucket_sort_quantile_based first_k 0%nat
                   (store_of scenario_1 tt)) in
  Imp.cells s' 0%nat = Imp.cells (store_of scenario_1 tt) 0%nat /\
  forall a, (a < Imp.next (store_of scenario_1 tt))%nat ->
    Imp.cells s' a = Imp.cells (store_of scenario_1 tt) a.
Proof.
  split; [simpl; lia|].
  apply (input_list_not_mutated first_k (store_of scenario_1 tt) 0%nat).
  simpl; lia.
Defined.

(** C9.  Two calls that start with the generator in the same state, on
    lists with the same contents, wherever those lists and anything else
    lie in the store, end with the same outcome: the same output sequence
    or the same exception, the same boundary sequence, and the generator
    in the same state. *)
Theorem same_seed_same_outcome {rng : Type}
  (choose : rng -> nat -> nat -> list nat * rng) (s1 s2 : Imp.state)
  (d1 d2 : Imp.addr) :
  (d1 < Imp.next s1)%nat -> (d2 < Imp.next s2)%nat ->
  Imp.rand s1 = Imp.rand s2 ->
  Imp.cells s1 d1 = Imp.cells s2 d2 ->
  observe (Imp.bucket_sort_quantile_based choose d1 s1) =
  observe (Imp.bucket_sort_quantile_based choose d2 s2) /\
  observe_locals (Imp.sort_nonempty choose d1 (len (Imp.cells s1 d1)) s1) =
  observe_locals (Imp.sort_nonempty choose d2 (len (Imp.cells s2 d2)) s2).
Proof.
  intros H1 H2 Hr Hc.
  rewrite !observe_bucket_sort, !observe_sort_nonempty by assumption.
  rewrite Hr, Hc. split; reflexivity.
Qed.

(** The first scenario from two stores that hold the input at different
    addresses. *)
Lemma same_seed_same_outcome_witness :
  (0 < Imp.next (store_of scenario_1 7%nat))%nat /\
  (2 < Imp.next (store_after_others scenario_1 7%nat))%nat /\
  Imp.rand (store_of scenario_1 7%nat) =
    Imp.rand (store_after_others scenario_1 7%nat) /\
  Imp.cells (store_of scenario_1 7%nat) 0%nat =
    Imp.cells (store_after_others scenario_1 7%nat) 2%nat /\
  observe (Imp.bucket_sort_quantile_based window 0%nat
             (store_of scenario_1 7%nat)) =
  observe (Imp.bucket_sort_quantile_based window 2%nat
             (store_after_others scenario_1 7%nat)) /\
  observe_locals
    (Imp.sort_nonempty window 0%nat
       (len (Imp.cells (store_of scenario_1 7%nat) 0%nat))
       (store_of scenario_1 7%nat)) =
  observe_locals
    (Imp.sort_nonempty window 2%nat
       (len (Imp.cells (store_after_others scenario_1 7%nat) 2%nat))
       (store_after_others scenario_1 7%nat)).
Proof.
  split; [simpl; lia|]. split; [simpl; lia|].
  split; [reflexivity|]. split; [reflexivity|].
  apply (same_seed_same_outcome window (store_of scenario_1 7%nat)
           (store_after_others scenario_1 7%nat) 0%nat 2%nat).
  - simpl; lia.
  - simpl; lia.
  - reflexivity.
  - reflexivity.
Defined.

(** C10.  In a call on a non-empty list no subscript or sample request is
    out of range: [1 <= sample_size <= n], so [random.sample] returns a
    sample of that size; every quantile index is a position of the sample;
    every bucket index is between 0 and [num_buckets - 1]; and the call
    returns without an exception. *)
Theorem operations_within_preconditions {rng : Type}
  (choose : rng -> nat -> nat -> list nat * rng) (g : rng) (data : list Z) :
  sampler_ok choose ->
  1 <= len data <= PY_SSIZE_T_MAX ->
  1 <= sample_size (len data) <= len data /\
  (exists drawn g',
     Pure.random_sample choose g data (sample_size (len data)) = (Ok drawn, g') /\
     len drawn = sample_size (len data)) /\
  (forall i, 1 <= i < num_buckets (len data) ->
     0 <= quantile_index i (num_buckets (len data)) (sample_size (len data))
       < sample_size (len data)) /\
  exists l g', Pure.sort_nonempty choose g data = (Ok l, g') /\
    len (Pure.sample l) = sample_size (len data) /\
    len (Pure.buckets l) = num_buckets (len data) /\
    forall x, 0 <= Z.of_nat (bisect_left (Pure.bucket_boundaries l) x)
                <= num_buckets (len data) - 1.
Proof.
  intros Hc Hn.
  pose proof (sample_size_bounds (len data) ltac:(lia)) as Hs.
  pose proof (num_buckets_bounds _ Hn) as Hnb.
  split; [exact Hs|]. split; [|split].
  - destruct (random_sample_ok choose Hc g data (sample_size (len data)) ltac:(lia))
      as (drawn & Hr & Hl & _).
    exists drawn. eexists. split; [exact Hr | exact Hl].
  - intros i Hi. apply quantile_index_valid; assumption.
  - destruct (sort_nonempty_ok choose Hc g data Hn) as (l & Hr & Hsl & _ & Hb & Hbs & Hk & _).
    exists l. eexists. split; [exact Hr|]. split; [exact Hsl|]. split.
    + rewrite Hk. unfold len at 1. rewrite length_map, length_seq. lia.
    + intros x. rewrite bisect_left_count by exact Hbs.
      pose proof (count_lt_le_length (Pure.bucket_boundaries l) x) as Hle.
      assert (Hbl : length (Pure.bucket_boundaries l)
                    = Z.to_nat (num_buckets (len data) - 1)).
      { rewrite Hb, length_map, range_length. reflexivity. }
      lia.
Qed.

(** The first scenario. *)
Lemma operations_within_preconditions_witness :
  sampler_ok first_k /\
  1 <= len [5; 3; 1; 4; 2] <= PY_SSIZE_T_MAX /\
  1 <= sample_size (len [5; 3; 1; 4; 2]) <= len [5; 3; 1; 4; 2] /\
  (exists drawn g',
     Pure.random_sample first_k tt [5; 3; 1; 4; 2]
       (sample_size (len [5; 3; 1; 4; 2])) = (Ok drawn, g') /\
     len drawn = sample_size (len [5; 3; 1; 4; 2])) /\
  (forall i, 1 <= i < num_buckets (len [5; 3; 1; 4; 2]) ->
     0 <= quantile_index i (num_buckets (len [5; 3; 1; 4; 2]))
            (sample_size (len [5; 3; 1; 4; 2]))
       < sample_size (len [5; 3; 1; 4; 2])) /\
  exists l g', Pure.sort_nonempty first_k tt [5; 3; 1; 4; 2] = (Ok l, g') /\
    len (Pure.sample l) = sample_size (len [5; 3; 1; 4; 2]) /\
    len (Pure.buckets l) = num_buckets (len [5; 3; 1; 4; 2]) /\
    forall x, 0 <= Z.of_nat (bisect_left (Pure.bucket_boundaries l) x)
                <= num_buckets (len [5; 3; 1; 4; 2]) - 1.
Proof.
  split; [exact first_k_ok|].
  split; [vm_compute; split; discriminate|].
  apply (operations_within_preconditions first_k tt [5; 3; 1; 4; 2]).
  - exact first_k_ok.
  - vm_compute; split; discriminate.
Defined.

(* ================================================================== *)
(** * Further properties of the code *)
(* ================================================================== *)

(** ** Shared lemmas *)

(** The result of a call is [sorted(data)]. *)
Lemma bucket_sort_eq_sorted {rng : Type}
  (choose : rng -> nat -> nat -> list nat * rng) (g : rng) (data : list Z) :
  sampler_ok choose ->
  len data <= PY_SSIZE_T_MAX ->
  fst (Pure.bucket_sort_quantile_based choose g data) = Ok (sorted data).
Proof.
  intros Hc Hn. unfold Pure.bucket_sort_quantile_based.
  destruct (Z.eqb_spec (len data) 0) as [E|NE].
  - destruct data; [reflexivity | discriminate E].
  - assert (H1 : 1 <= len data <= PY_SSIZE_T_MAX) by (unfold len in *; lia).
    destruct (sort_nonempty_sorted_perm choose Hc g data H1) as (l & g' & -> & Hp & Hs).
    simpl. f_equal. symmetry. apply sorted_unique; assumption.
Qed.

(** The binary search stays between its bounds on every list, sorted or
    not. *)
Lemma bisect_loop_bounds a x lo hi :
  (lo <= hi)%nat -> (lo <= bisect_loop a x lo hi <= hi)%nat.
Proof.
  funelim (bisect_loop a x lo hi); intros Hb.
  - lia.
  - assert (Hmid : (lo <= (lo + hi) / 2 < hi)%nat).
    { pose proof (Nat.div_mod (lo + hi) 2 ltac:(lia)).
      pose proof (Nat.mod_upper_bound (lo + hi) 2 ltac:(lia)). lia. }
    match goal with IH : (_ <= _)%nat -> _ |- _ => specialize (IH ltac:(lia)) end.
    lia.
  - assert (Hmid : (lo <= (lo + hi) / 2 < hi)%nat).
    { pose proof (Nat.div_mod (lo + hi) 2 ltac:(lia)).
      pose proof (Nat.mod_upper_bound (lo + hi) 2 ltac:(lia)). lia. }
    match goal with IH : (_ <= _)%nat -> _ |- _ => specialize (IH ltac:(lia)) end.
    lia.
Qed.

Lemma bisect_left_le_length a x : (bisect_left a x <= length a)%nat.
Proof. unfold bisect_left. pose proof (bisect_loop_bounds a x 0 (length a)). lia. Qed.

(** Lines 33-46 for an arbitrary boundary list. *)
Lemma scatter_any_boundaries bs data :
  exists bks,
    Pure.assign_loop bs data (repeat [] (S (length bs))) = Ok bks /\
    bks = map (fun j => filter (fun x => Nat.eqb (bisect_left bs x) j) data)
              (seq 0 (S (length bs))).
Proof.
  destruct (assign_loop_ok bs data (repeat [] (S (length bs)))) as (res & Hr & Hl & Hn).
  { intros x _. rewrite repeat_length. pose proof (bisect_left_le_length bs x). lia. }
  exists res. split; [exact Hr|].
  rewrite repeat_length in Hl.
  apply (map_seq_ext _ _ []); [exact Hl|].
  intros j Hj. rewrite Hn, nth_repeat. reflexivity.
Qed.

Lemma Sorted_le_StronglySorted l : Sorted Z.le l -> StronglySorted Z.le l.
Proof.
  apply Sorted_StronglySorted. intros x y z Hxy Hyz. lia.
Qed.

(** ** Properties *)

(** X1.  The result is [sorted(data)] whatever the sampler and the state
    of the generator: the random sample decides how the elements spread
    over the buckets, never the output. *)
Theorem output_is_sorted_input {rng1 rng2 : Type}
  (choose1 : rng1 -> nat -> nat -> list nat * rng1)
  (choose2 : rng2 -> nat -> nat -> list nat * rng2)
  (g1 : rng1) (g2 : rng2) (data : list Z) :
  sampler_ok choose1 -> sampler_ok choose2 ->
  len data <= PY_SSIZE_T_MAX ->
  fst (Pure.bucket_sort_quantile_based choose1 g1 data) = Ok (sorted data) /\
  fst (Pure.bucket_sort_quantile_based choose1 g1 data) =
  fst (Pure.bucket_sort_quantile_based choose2 g2 data).
Proof.
  intros H1 H2 Hn.
  rewrite (bucket_sort_eq_sorted choose1 g1 data H1 Hn).
  rewrite (bucket_sort_eq_sorted choose2 g2 data H2 Hn).
  split; reflexivity.
Qed.

(** The first scenario with two different samplers. *)
Lemma output_is_sorted_input_witness :
  sampler_ok first_k /\ sampler_ok window /\
  len scenario_1 <= PY_SSIZE_T_MAX /\
  fst (Pure.bucket_sort_quantile_based first_k tt scenario_1)
    = Ok (sorted scenario_1) /\
  fst (Pure.bucket_sort_quantile_based first_k tt scenario_1) =
  fst (Pure.bucket_sort_quantile_based window 3%nat scenario_1).
Proof.
  split; [exact first_k_ok|]. split; [exact window_ok|].
  split; [vm_compute; discriminate|].
  apply (output_is_sorted_input first_k window tt 3%nat scenario_1).
  - exact first_k_ok.
  - exact window_ok.
  - vm_compute; discriminate.
Defined.

(** X2.  A list that is already in non-decreasing order is returned with
    the same contents. *)
Theorem sorted_input_unchanged {rng : Type}
  (choose : rng -> nat -> nat -> list nat * rng) (g : rng) (data : list Z) :
  sampler_ok choose ->
  len data <= PY_SSIZE_T_MAX ->
  Sorted Z.le data ->
  fst (Pure.bucket_sort_quantile_based choose g data) = Ok data.
Proof.
  intros Hc Hn Hs. rewrite (bucket_sort_eq_sorted choose g data Hc Hn). f_equal.
  apply sorted_unique; [apply Sorted_le_StronglySorted, Hs | reflexivity].
Qed.

(** A sorted list with a repeated value. *)
Lemma sorted_input_unchanged_witness :
  sampler_ok window /\
  len [1; 2; 2; 3; 5; 8] <= PY_SSIZE_T_MAX /\
  Sorted Z.le [1; 2; 2; 3; 5; 8] /\
  fst (Pure.bucket_sort_quantile_based window 3%nat [1; 2; 2; 3; 5; 8])
    = Ok [1; 2; 2; 3; 5; 8].
Proof.
  split; [exact window_ok|]. split; [vm_compute; discriminate|].
  split; [repeat constructor; lia|].
  apply (sorted_input_unchanged window 3%nat [1; 2; 2; 3; 5; 8]).
  - exact window_ok.
  - vm_compute; discriminate.
  - repeat constructor; lia.
Defined.

(** X3.  Lines 33-46 lose and duplicate nothing, whatever the boundaries
    are: for every boundary list, sorted or not, with one bucket more than
    there are boundaries, no subscript [buckets[index]] is out of range,
    bucket [j] receives, in input order, exactly the elements whose
    insertion point is [j], and both the buckets together and the
    concatenation of the sorted buckets are permutations of the input. *)
Theorem scatter_gather_is_permutation (bs data : list Z) :
  exists bks,
    Pure.assign_loop bs data (repeat [] (S (length bs))) = Ok bks /\
    length bks = S (length bs) /\
    (forall j, nth j bks [] =
               filter (fun x => Nat.eqb (bisect_left bs x) j) data) /\
    Permutation data (concat bks) /\
    Permutation data (Pure.extend_loop bks []).
Proof.
  destruct (scatter_any_boundaries bs data) as (bks & Hr & Hb).
  exists bks. split; [exact Hr|].
  assert (Hp : Permutation data (concat bks)).
  { rewrite Hb. apply classes_perm. intros x _.
    pose proof (bisect_left_le_length bs x). lia. }
  split; [rewrite Hb, length_map, length_seq; reflexivity|].
  split; [|split; [exact Hp|]].
  - intros j. rewrite Hb.
    destruct (Nat.lt_ge_cases j (S (length bs))) as [Hj|Hj].
    + set (F := fun j => filter (fun x => Nat.eqb (bisect_left bs x) j) data).
      rewrite (nth_indep _ [] (F 0%nat)) by (rewrite length_map, length_seq; exact Hj).
      rewrite (map_nth F), seq_nth by exact Hj. reflexivity.
    + rewrite nth_overflow by (rewrite length_map, length_seq; exact Hj).
      symmetry. clear Hr Hb Hp. induction data as [|x data IH]; [reflexivity|]. simpl.
      destruct (Nat.eqb_spec (bisect_left bs x) j) as [E|_]; [|exact IH].
      pose proof (bisect_left_le_length bs x). lia.
  - rewrite extend_loop_concat. cbn [app]. rewrite <- concat_sorted_perm. exact Hp.
Qed.

(** X4.  Lines 33-46 sort for every non-decreasing boundary list, not
    only for the quantiles of a sample: the result is [sorted(data)]. *)
Theorem sorted_boundaries_sort (bs data : list Z) :
  Sorted Z.le bs ->
  exists bks,
    Pure.assign_loop bs data (repeat [] (S (length bs))) = Ok bks /\
    Pure.extend_loop bks [] = sorted data.
Proof.
  intros Hs. apply Sorted_le_StronglySorted in Hs.
  destruct (scatter_any_boundaries bs data) as (bks & Hr & Hb).
  exists bks. split; [exact Hr|].
  symmetry. apply sorted_unique.
  - rewrite extend_loop_concat, Hb. cbn [app]. apply classes_sorted.
    intros x y _ _ Hxy. rewrite !bisect_left_count in Hxy by exact Hs.
    destruct (Z.le_gt_cases x y) as [Hle|Hgt]; [exact Hle|].
    pose proof (count_lt_mono bs y x ltac:(lia)). lia.
  - rewrite extend_loop_concat, Hb. cbn [app]. rewrite <- concat_sorted_perm.
    apply classes_perm. intros x _. pose proof (bisect_left_le_length bs x). lia.
Qed.

(** Boundaries that are no quantiles of the data. *)
Lemma sorted_boundaries_sort_witness :
  Sorted Z.le [0; 0; 100] /\
  exists bks,
    Pure.assign_loop [0; 0; 100] scenario_1
      (repeat [] (S (length [0; 0; 100]))) = Ok bks /\
    Pure.extend_loop bks [] = sorted scenario_1.
Proof.
  split; [repeat constructor; lia|].
  apply (sorted_boundaries_sort [0; 0; 100] scenario_1).
  repeat constructor; lia.
Defined.

(** ** The sample *)

Lemma map_nth_seq {A : Type} (l : list A) (d : A) :
  map (fun p => nth p l d) (seq 0 (length l)) = l.
Proof.
  induction l as [|x l IH]; simpl; [reflexivity|]. f_equal.
  rewrite <- seq_shift, map_map. exact IH.
Qed.

(** Distinct positions below [n] extend to a rearrangement of all the
    positions. *)
Lemma positions_complement n ps :
  NoDup ps -> Forall (fun p => (p < n)%nat) ps ->
  exists qs, Permutation (seq 0 n) (ps ++ qs).
Proof.
  induction 1 as [|p ps Hp Hnd IH]; intros Hr.
  - exists (seq 0 n). reflexivity.
  - inversion Hr as [|? ? Hpn Hr']; subst.
    destruct (IH Hr') as (qs & Hq).
    assert (Hin : In p (ps ++ qs)).
    { eapply Permutation_in; [exact Hq|]. apply in_seq. lia. }
    apply in_app_or in Hin. destruct Hin as [Hin|Hin]; [contradiction|].
    apply in_split in Hin. destruct Hin as (q1 & q2 & ->).
    exists (q1 ++ q2). rewrite Hq. simpl.
    rewrite app_assoc. rewrite <- Permutation_middle.
    rewrite <- app_assoc. reflexivity.
Qed.

(** What [random.sample] draws is a part of the population: the
    population is a rearrangement of the drawn elements and the others. *)
Lemma drawn_part_of_population {rng : Type}
  (choose : rng -> nat -> nat -> list nat * rng) (g : rng) (data : list Z) k :
  sampler_ok choose -> (k <= length data)%nat ->
  exists others,
    Permutation data
      (map (fun p => nth p data 0) (fst (choose g (length data) k)) ++ others).
Proof.
  intros Hc Hk. destruct (Hc g (length data) k Hk) as (_ & Hnd & Hr).
  destruct (positions_complement (length data) _ Hnd Hr) as (qs & Hq).
  exists (map (fun p => nth p data 0) qs).
  rewrite <- map_app, <- Hq, map_nth_seq. reflexivity.
Qed.

(** The local [sample] of a call, in terms of the positions drawn. *)
Lemma sort_nonempty_sample {rng : Type}
  (choose : rng -> nat -> nat -> list nat * rng) (g : rng) (data : list Z) :
  sampler_ok choose ->
  1 <= len data <= PY_SSIZE_T_MAX ->
  exists l g', Pure.sort_nonempty choose g data = (Ok l, g') /\
    Pure.sample l =
      sorted (map (fun p => nth p data 0)
                (fst (choose g (length data)
                        (Z.to_nat (sample_size (len data)))))).
Proof.
  intros Hc Hn.
  destruct (sort_nonempty_ok choose Hc g data Hn) as (l & Hr & _).
  exists l. eexists. split; [exact Hr|].
  pose proof (sample_size_bounds (len data) ltac:(lia)) as Hs.
  unfold Pure.sort_nonempty, Pure.random_sample in Hr.
  destruct (Z.ltb_spec (sample_size (len data)) 0); [lia|].
  destruct (Z.ltb_spec (len data) (sample_size (len data))); [lia|].
  cbn [orb] in Hr.
  destruct (choose g (length data) (Z.to_nat (sample_size (len data)))) as [ps g1].
  cbn [fst].
  destruct (Pure.boundaries _ _ _) as [bs|e]; cbn [bind] in Hr; [|discriminate].
  destruct (Pure.assign_loop _ _ _) as [bks|e]; cbn [bind] in Hr; [|discriminate].
  inversion Hr. reflexivity.
Qed.

(** X5.  The sample of a call is a part of the input: the input is a
    rearrangement of the sample and the elements left out, so no value is
    sampled more often than it occurs, and every bucket boundary is an
    element of the input. *)
Theorem sample_is_part_of_input {rng : Type}
  (choose : rng -> nat -> nat -> list nat * rng) (g : rng) (data : list Z) :
  sampler_ok choose ->
  1 <= len data <= PY_SSIZE_T_MAX ->
  exists l g', Pure.sort_nonempty choose g data = (Ok l, g') /\
    (exists others, Permutation data (Pure.sample l ++ others)) /\
    (forall v, (count_occ Z.eq_dec (Pure.sample l) v
                <= count_occ Z.eq_dec data v)%nat) /\
    (forall b, In b (Pure.bucket_boundaries l) -> In b data).
Proof.
  intros Hc Hn.
  destruct (sort_nonempty_sample choose g data Hc Hn) as (l & g' & Hr & Hsm).
  destruct (sort_nonempty_ok choose Hc g data Hn) as (l2 & Hr2 & Hsl & _ & Hb & _).
  assert (l2 = l) by congruence. subst l2.
  pose proof (sample_size_bounds (len data) ltac:(lia)) as Hs.
  destruct (drawn_part_of_population choose g data
              (Z.to_nat (sample_size (len data))) Hc) as (others & Hp).
  { clear -Hs. unfold len in *. lia. }
  assert (Hp' : Permutation data (Pure.sample l ++ others)).
  { rewrite Hsm, <- sorted_perm. exact Hp. }
  exists l, g'. split; [exact Hr|]. split; [exists others; exact Hp'|]. split.
  - intros v. rewrite (Permutation_count_occ Z.eq_dec) in Hp'.
    rewrite (Hp' v), count_occ_app. lia.
  - intros b Hin. rewrite Hb in Hin. apply in_map_iff in Hin.
    destruct Hin as (i & <- & Hi). apply range_In in Hi.
    pose proof (quantile_index_valid (len data) i Hn Hi) as Hq.
    eapply Permutation_in; [symmetry; exact Hp'|].
    apply in_or_app. left. apply nth_In. clear -Hq Hsl. unfold len in *. lia.
Qed.

(** Eighteen elements, of which the counter-driven sampler leaves none
    out. *)
Lemma sample_is_part_of_input_witness :
  sampler_ok window /\
  1 <= len [9; 8; 7; 6; 5; 4; 3; 2; 1; 0; 11; 12; 13; 14; 15; 16; 17; 10]
    <= PY_SSIZE_T_MAX /\
  exists l g',
    Pure.sort_nonempty window 3%nat
      [9; 8; 7; 6; 5; 4; 3; 2; 1; 0; 11; 12; 13; 14; 15; 16; 17; 10]
      = (Ok l, g') /\
    (exists others,
       Permutation [9; 8; 7; 6; 5; 4; 3; 2; 1; 0; 11; 12; 13; 14; 15; 16; 17; 10]
         (Pure.sample l ++ others)) /\
    (forall v, le (count_occ Z.eq_dec (Pure.sample l) v)
                  (count_occ Z.eq_dec
                     [9; 8; 7; 6; 5; 4; 3; 2; 1; 0; 11; 12; 13; 14; 15; 16; 17; 10]
                     v)) /\
    (forall b, In b (Pure.bucket_boundaries l) ->
       In b [9; 8; 7; 6; 5; 4; 3; 2; 1; 0; 11; 12; 13; 14; 15; 16; 17; 10]).
Proof.
  split; [exact window_ok|].
  split; [vm_compute; split; discriminate|].
  apply (sample_is_part_of_input window 3%nat
           [9; 8; 7; 6; 5; 4; 3; 2; 1; 0; 11; 12; 13; 14; 15; 16; 17; 10]).
  - exact window_ok.
  - vm_compute; split; discriminate.
Defined.

(** Up to 1000 elements the sample is the whole input. *)
Lemma small_input_locals {rng : Type}
  (choose : rng -> nat -> nat -> list nat * rng) (g : rng) (data : list Z) :
  sampler_ok choose ->
  1 <= len data <= 1000 ->
  exists l g', Pure.sort_nonempty choose g data = (Ok l, g') /\
    Pure.sample l = sorted data /\
    Pure.bucket_boundaries l =
      map (fun i => nth (Z.to_nat (quantile_index i (num_buckets (len data))
                                     (len data)))
                        (sorted data) 0)
          (range 1 (num_buckets (len data))) /\
    StronglySorted Z.le (Pure.bucket_boundaries l) /\
    Pure.buckets l =
      map (fun j => filter (fun x =>
                      Nat.eqb (count_lt (Pure.bucket_boundaries l) x) j) data)
          (seq 0 (Z.to_nat (num_buckets (len data)))).
Proof.
  intros Hc Hn.
  assert (Hn' : 1 <= len data <= PY_SSIZE_T_MAX) by (unfold PY_SSIZE_T_MAX; lia).
  assert (Hss : sample_size (len data) = len data).
  { rewrite sample_size_percent by lia.
    assert (len data / 100 <= 1000) by (Z.div_mod_to_equations; lia). lia. }
  destruct (sort_nonempty_sample choose g data Hc Hn') as (l & g' & Hr & Hsm).
  destruct (sort_nonempty_ok choose Hc g data Hn')
    as (l2 & Hr2 & _ & _ & Hb & Hbs & Hk2 & _).
  assert (l2 = l) by congruence. subst l2.
  rewrite Hss in *.
  assert (Hk : Z.to_nat (len data) = length data) by (unfold len; lia).
  rewrite Hk in Hsm.
  destruct (drawn_part_of_population choose g data (length data) Hc (le_n _))
    as (others & Hp).
  assert (others = []).
  { apply Permutation_length in Hp. rewrite length_app, length_map in Hp.
    destruct (Hc g (length data) (length data) (le_n _)) as (Hl & _).
    rewrite Hl in Hp. destruct others; [reflexivity | simpl in Hp; lia]. }
  subst others. rewrite app_nil_r in Hp.
  assert (Hs : Pure.sample l = sorted data).
  { rewrite Hsm. apply sorted_unique; [apply sorted_sorted|].
    rewrite <- sorted_perm. symmetry. exact Hp. }
  exists l, g'. split; [exact Hr|]. split; [exact Hs|].
  split; [rewrite Hb, Hs; reflexivity|]. split; [exact Hbs | exact Hk2].
Qed.

(** X6.  Up to 1000 elements the whole input is sampled: the sorted
    sample is [sorted(data)], and the boundaries are entries of the sorted
    input at the quantile indices, the same for every sampler and every
    state of the generator. *)
Theorem small_input_fully_sampled {rng : Type}
  (choose : rng -> nat -> nat -> list nat * rng) (g : rng) (data : list Z) :
  sampler_ok choose ->
  1 <= len data <= 1000 ->
  exists l g', Pure.sort_nonempty choose g data = (Ok l, g') /\
    Pure.sample l = sorted data /\
    Pure.bucket_boundaries l =
      map (fun i => nth (Z.to_nat (quantile_index i (num_buckets (len data))
                                     (len data)))
                        (sorted data) 0)
          (range 1 (num_buckets (len data))).
Proof.
  intros Hc Hn.
  destruct (small_input_locals choose g data Hc Hn) as (l & g' & Hr & Hs & Hb & _).
  exists l, g'. auto.
Qed.

(** The first scenario. *)
Lemma small_input_fully_sampled_witness :
  sampler_ok window /\
  1 <= len scenario_1 <= 1000 /\
  exists l g', Pure.sort_nonempty window 3%nat scenario_1 = (Ok l, g') /\
    Pure.sample l = sorted scenario_1 /\
    Pure.bucket_boundaries l =
      map (fun i => nth (Z.to_nat (quantile_index i (num_buckets (len scenario_1))
                                     (len scenario_1)))
                        (sorted scenario_1) 0)
          (range 1 (num_buckets (len scenario_1))).
Proof.
  split; [exact window_ok|].
  split; [vm_compute; split; discriminate|].
  apply (small_input_fully_sampled window 3%nat scenario_1).
  - exact window_ok.
  - vm_compute; split; discriminate.
Defined.

(** X7.  The three regimes of the sample size below [2^52]: the whole
    input up to 1000 elements, exactly 1000 elements from there to 100099,
    and one hundredth of the input, rounded down and strictly fewer than
    the input, from 100100 on. *)
Theorem sample_size_regimes (n : Z) :
  1 <= n < 2 ^ 52 ->
  (n <= 1000 -> sample_size n = n) /\
  (1000 <= n < 100100 -> sample_size n = 1000) /\
  (100100 <= n -> sample_size n = n / 100 /\ 1000 < sample_size n < n).
Proof.
  intros Hn. rewrite sample_size_percent by lia.
  repeat split; intros; Z.div_mod_to_equations; lia.
Qed.

(** A size in the middle regime. *)
Lemma sample_size_regimes_witness :
  1 <= 50000 < 2 ^ 52 /\
  (50000 <= 1000 -> sample_size 50000 = 50000) /\
  (1000 <= 50000 < 100100 -> sample_size 50000 = 1000) /\
  (100100 <= 50000 ->
   sample_size 50000 = 50000 / 100 /\ 1000 < sample_size 50000 < 50000).
Proof.
  split; [vm_compute; split; [discriminate | reflexivity]|].
  apply (sample_size_regimes 50000).
  vm_compute; split; [discriminate | reflexivity].
Defined.

(** ** The returned object *)

(** X8.  Which object a call returns.  On an empty list it returns the
    very reference it was given and leaves the store and the generator as
    they were, so the caller holds one object under two names.  On a
    non-empty list it returns a reference to an object that did not exist
    before the call, holding [sorted(data)], distinct from the input and
    from every other object of the caller. *)
Theorem returned_object {rng : Type}
  (choose : rng -> nat -> nat -> list nat * rng) (s : Imp.state)
  (data : Imp.addr) :
  sampler_ok choose ->
  (data < Imp.next s)%nat ->
  len (Imp.cells s data) <= PY_SSIZE_T_MAX ->
  (Imp.cells s data = [] ->
   Imp.bucket_sort_quantile_based choose data s = (Ok data, s)) /\
  (Imp.cells s data <> [] ->
   exists a s',
     Imp.bucket_sort_quantile_based choose data s = (Ok a, s') /\
     (Imp.next s <= a)%nat /\
     a <> data /\
     Imp.cells s' a = sorted (Imp.cells s data) /\
     Imp.cells s' data = Imp.cells s data).
Proof.
  intros Hc Hd Hn. split.
  - intros E. unfold Imp.bucket_sort_quantile_based.
    rewrite (mbind_ok _ _ _ _ _ (load_spec data s)). rewrite E. reflexivity.
  - intros NE. unfold Imp.bucket_sort_quantile_based.
    rewrite (mbind_ok _ _ _ _ _ (load_spec data s)).
    assert (H1 : 1 <= len (Imp.cells s data) <= PY_SSIZE_T_MAX).
    { destruct (Imp.cells s data); [congruence|]. unfold len in *. simpl length in *. lia. }
    destruct (Z.eqb_spec (len (Imp.cells s data)) 0) as [E|_]; [lia|].
    destruct (sort_nonempty_refines choose s data Hd) as (r & s' & E & N & F & H).
    destruct (sort_nonempty_sorted_perm choose Hc (Imp.rand s) (Imp.cells s data) H1)
      as (l & g' & Hp & Hperm & Hsort).
    rewrite Hp in H. destruct H as (bb & sd & -> & _ & Hsd & _ & Hcs & _).
    rewrite (mbind_ok _ _ _ _ _ E). unfold Imp.ret. cbn [snd].
    exists sd, s'. split; [reflexivity|].
    split; [lia|]. split; [lia|]. split.
    + rewrite Hcs. symmetry. apply sorted_unique; assumption.
    + apply F, Hd.
Qed.



(** The first scenario, with the input list as the only object of the
    store. *)
Lemma returned_object_witness :
  sampler_ok first_k /\
  (0 < Imp.next (store_of scenario_1 tt))%nat /\
  len (Imp.cells (store_of scenario_1 tt) 0%nat) <= PY_SSIZE_T_MAX /\
  (Imp.cells (store_of scenario_1 tt) 0%nat = [] ->
   Imp.bucket_sort_quantile_based first_k 0%nat (store_of scenario_1 tt)
     = (Ok 0%nat, store_of scenario_1 tt)) /\
  (Imp.cells (store_of scenario_1 tt) 0%nat <> [] ->
   exists a s',
     Imp.bucket_sort_quantile_based first_k 0%nat (store_of scenario_1 tt)
       = (Ok a, s') /\
     (Imp.next (store_of scenario_1 tt) <= a)%nat /\
     a <> 0%nat /\
     Imp.cells s' a = sorted (Imp.cells (store_of scenario_1 tt) 0%nat) /\
     Imp.cells s' 0%nat = Imp.cells (store_of scenario_1 tt) 0%nat).
Proof.
  split; [exact first_k_ok|]. split; [simpl; lia|].
  split; [vm_compute; discriminate|].
  apply (returned_object first_k (store_of scenario_1 tt) 0%nat).
  - exact first_k_ok.
  - simpl; lia.
  - vm_compute; discriminate.
Defined.

(** ** The timing wrapper *)

Lemma fsub_bounds a b :
  (b <= a)%Q ->
  (0 <= fsub a b /\
   (a - b) * (1 - eps) <= fsub a b /\ fsub a b <= (a - b) * (1 + eps))%Q.
Proof.
  intros Hab. unfold fsub.
  assert (E : Qle_bool b a = true) by (apply Qle_bool_iff; exact Hab).
  rewrite E. split; [apply Binary64Facts.rnd_nonneg|].
  apply Binary64Facts.rnd_error. lra.
Qed.

(** X9.  [bucket_sort_with_timing] returns [sorted(data)] together with
    the difference of two clock readings, one taken before and one after
    the sort: with a monotonic clock the elapsed time is never negative
    and is the exact difference of the readings up to one rounding. *)
Theorem timing_wrapper {rng clock : Type}
  (choose : rng -> nat -> nat -> list nat * rng)
  (perf_counter : clock -> Q * clock) (g : rng) (c : clock)
  (data : list Z) :
  sampler_ok choose ->
  clock_monotonic perf_counter ->
  len data <= PY_SSIZE_T_MAX ->
  let start_time := fst (perf_counter c) in
  let end_time := fst (perf_counter (snd (perf_counter c))) in
  exists elapsed_time,
    Timing.bucket_sort_with_timing choose perf_counter g c data =
      (Ok (sorted data, elapsed_time),
       (snd (Pure.bucket_sort_quantile_based choose g data),
        snd (perf_counter (snd (perf_counter c))))) /\
    (0 <= elapsed_time)%Q /\
    ((end_time - start_time) * (1 - eps) <= elapsed_time)%Q /\
    (elapsed_time <= (end_time - start_time) * (1 + eps))%Q.
Proof.
  intros Hc Hm Hn start_time end_time.
  pose proof (bucket_sort_eq_sorted choose g data Hc Hn) as Hs.
  pose proof (Hm c) as Hmc. fold start_time end_time in Hmc.
  unfold Timing.bucket_sort_with_timing.
  subst start_time end_time.
  destruct (perf_counter c) as [t1 c1]. cbn [fst snd] in *.
  destruct (Pure.bucket_sort_quantile_based choose g data) as [[out|e] g'];
    cbn [fst snd] in *; [|discriminate].
  injection Hs as ->.
  destruct (perf_counter c1) as [t2 c2]. cbn [fst snd] in *.
  exists (fsub t2 t1). split; [reflexivity|].
  apply fsub_bounds. exact Hmc.
Qed.

Lemma quarter_clock_monotonic : clock_monotonic quarter_clock.
Proof.
  intros c. unfold quarter_clock. cbn [fst snd].
  apply Qmult_le_compat_r; [|discriminate].
  rewrite <- Zle_Qle. lia.
Qed.

(** The first scenario, timed by a clock that starts at 1.25 s. *)
Lemma timing_wrapper_witness :
  sampler_ok first_k /\
  clock_monotonic quarter_clock /\
  len scenario_1 <= PY_SSIZE_T_MAX /\
  let start_time := fst (quarter_clock 5%nat) in
  let end_time := fst (quarter_clock (snd (quarter_clock 5%nat))) in
  exists elapsed_time,
    Timing.bucket_sort_with_timing first_k quarter_clock tt 5%nat scenario_1 =
      (Ok (sorted scenario_1, elapsed_time),
       (snd (Pure.bucket_sort_quantile_based first_k tt scenario_1),
        snd (quarter_clock (snd (quarter_clock 5%nat))))) /\
    (0 <= elapsed_time)%Q /\
    ((end_time - start_time) * (1 - eps) <= elapsed_time)%Q /\
    (elapsed_time <= (end_time - start_time) * (1 + eps))%Q.
Proof.
  split; [exact first_k_ok|]. split; [exact quarter_clock_monotonic|].
  split; [vm_compute; discriminate|].
  apply (timing_wrapper first_k quarter_clock tt 5%nat scenario_1).
  - exact first_k_ok.
  - exact quarter_clock_monotonic.
  - vm_compute; discriminate.
Defined.

(** ** The load of the buckets *)

(** A sorted list without repetition is strictly increasing. *)
Lemma sorted_NoDup_strict l :
  StronglySorted Z.le l -> NoDup l ->
  forall p p', (p < p' < length l)%nat -> nth p l 0 < nth p' l 0.
Proof.
  intros Hs Hnd p p' Hp.
  pose proof (StronglySorted_nth l Hs p p' ltac:(lia)) as Hle.
  assert (nth p l 0 <> nth p' l 0); [|lia].
  intros E. apply (proj1 (NoDup_nth l 0) Hnd) in E; lia.
Qed.

(** The quantile indices, extended by [-1] on the left and by the last
    position on the right, in terms of the exact quantiles. *)
Lemma quantile_index_step n b i :
  1 <= n -> 1 <= b -> b * n <= 2 ^ 51 -> 0 <= i < b ->
  (if i + 1 <? b then quantile_index (i + 1) b n else n - 1)
  - (if 0 <? i then quantile_index i b n else -1)
  <= (n - 1) / b + 2.
Proof.
  intros Hn Hb Hbn Hi.
  assert (Hhi : (if i + 1 <? b then quantile_index (i + 1) b n else n - 1)
                <= (i + 1) * (n - 1) / b).
  { destruct (Z.ltb_spec (i + 1) b) as [Hlt|Hge].
    - apply Binary64Facts.quantile_index_bracket; lia.
    - assert (i + 1 = b) by lia.
      apply Z.div_le_lower_bound; [lia|]. nia. }
  assert (Hlo : i * (n - 1) / b - 1
                <= (if 0 <? i then quantile_index i b n else -1)).
  { destruct (Z.ltb_spec 0 i) as [Hlt|Hge].
    - apply Binary64Facts.quantile_index_bracket; lia.
    - assert (i = 0) by lia. subst i. rewrite Z.mul_0_l, Zdiv_0_l. lia. }
  assert (Hd : (i + 1) * (n - 1) / b - i * (n - 1) / b <= (n - 1) / b + 1).
  { assert (Hm : 0 <= n - 1) by lia. revert Hm. generalize (n - 1). intros m Hm.
    Z.div_mod_to_equations. nia. }
  lia.
Qed.


(** On a sorted list the count of smaller entries is the leftmost
    insertion point. *)
Lemma count_lt_insertion bs x :
  StronglySorted Z.le bs ->
  (forall k, (k < count_lt bs x)%nat -> nth k bs 0 < x) /\
  (forall k, (count_lt bs x <= k < length bs)%nat -> x <= nth k bs 0).
Proof.
  intros Hbs. rewrite <- (bisect_left_count bs x Hbs). unfold bisect_left.
  destruct (bisect_loop_spec bs x Hbs 0 (length bs)) as (_ & H2 & H3);
    [lia | intros; lia | intros; lia |].
  split; assumption.
Qed.

(** X10.  The load of the buckets.  For an input of at most 1000 distinct
    elements with [n] elements and [b] buckets, no bucket receives more
    than [floor((n - 1) / b) + 2] elements, whatever the sampler does. *)
Theorem buckets_balanced {rng : Type}
  (choose : rng -> nat -> nat -> list nat * rng) (g : rng) (data : list Z) :
  sampler_ok choose ->
  1 <= len data <= 1000 ->
  NoDup data ->
  exists l g', Pure.sort_nonempty choose g data = (Ok l, g') /\
    forall bucket, In bucket (Pure.buckets l) ->
      len bucket <= (len data - 1) / num_buckets (len data) + 2.
Proof.
  intros Hc Hn Hnd.
  destruct (small_input_locals choose g data Hc Hn)
    as (l & g' & Hr & _ & Hb & Hbs & Hk).
  exists l, g'. split; [exact Hr|].
  assert (Hn' : 1 <= len data <= PY_SSIZE_T_MAX) by (unfold PY_SSIZE_T_MAX; lia).
  pose proof (num_buckets_bounds _ Hn') as Hnb.
  assert (Hss : sample_size (len data) = len data).
  { rewrite sample_size_percent by lia.
    assert (len data / 100 <= 1000) by (Z.div_mod_to_equations; lia). lia. }
  assert (Hq : forall i, 1 <= i < num_buckets (len data) ->
            0 <= quantile_index i (num_buckets (len data)) (len data) < len data).
  { intros i Hi. pose proof (quantile_index_valid (len data) i Hn' Hi) as H.
    rewrite Hss in H. exact H. }
  assert (Hnlen : len data = Z.of_nat (length (sorted data))).
  { rewrite sorted_length. reflexivity. }
  assert (HSs : StronglySorted Z.le (sorted data)) by apply sorted_sorted.
  assert (HSn : NoDup (sorted data)).
  { eapply Permutation_NoDup; [apply sorted_perm | exact Hnd]. }
  assert (HSin : forall x, In x data -> In x (sorted data)).
  { intros x Hx. eapply Permutation_in; [apply sorted_perm | exact Hx]. }
  revert Hb Hk Hnb Hq Hnlen HSs HSn HSin.
  generalize (sorted data) as S. generalize (num_buckets (len data)) as b.
  clear Hss Hn'. revert Hn. generalize (len data) as n.
  intros n Hn b S Hb Hk Hnb Hq Hnlen HSs HSn HSin.
  assert (Hbl : length (Pure.bucket_boundaries l) = Z.to_nat (b - 1)).
  { rewrite Hb, length_map, range_length. reflexivity. }
  assert (Hbn : forall k, (k < Z.to_nat (b - 1))%nat ->
            nth k (Pure.bucket_boundaries l) 0
            = nth (Z.to_nat (quantile_index (Z.of_nat k + 1) b n)) S 0).
  { intros k Hk'. rewrite Hb.
    set (F := fun i => nth (Z.to_nat (quantile_index i b n)) S 0).
    rewrite (nth_indep _ 0 (F 0)) by (rewrite length_map, range_length; exact Hk').
    rewrite (map_nth F), range_nth by exact Hk'. unfold F.
    replace (1 + Z.of_nat k) with (Z.of_nat k + 1) by lia. reflexivity. }
  intros bucket Hin. rewrite Hk in Hin. apply in_map_iff in Hin.
  destruct Hin as (j & <- & Hj). apply in_seq in Hj.
  revert Hbs Hbl Hbn. generalize (Pure.bucket_boundaries l) as bs.
  intros bs Hbs Hbl Hbn.
  remember (Z.of_nat j) as i eqn:Ei.
  remember (if 0 <? i then quantile_index i b n else -1) as lo eqn:Elo.
  remember (if i + 1 <? b then quantile_index (i + 1) b n else n - 1) as hi eqn:Ehi.
  assert (Hstep : hi - lo <= (n - 1) / b + 2).
  { subst lo hi. apply quantile_index_step; [lia | lia | nia | lia]. }
  assert (Hlo : -1 <= lo).
  { subst lo. destruct (Z.ltb_spec 0 i); [|lia].
    pose proof (Hq i ltac:(lia)). lia. }
  assert (Hincl : incl (filter (fun x => Nat.eqb (count_lt bs x) j) data)
            (map (fun p => nth p S 0)
                 (seq (Z.to_nat (lo + 1)) (Z.to_nat (hi - lo))))).
  { intros x Hx. apply filter_In in Hx. destruct Hx as [Hx Hc'].
    apply Nat.eqb_eq in Hc'.
    destruct (In_nth S x 0 (HSin x Hx)) as (p & Hp & Hpx).
    destruct (count_lt_insertion bs x Hbs) as [Hbelow Habove].
    rewrite Hc' in Hbelow, Habove.
    assert (Hp1 : lo < Z.of_nat p).
    { subst lo. destruct (Z.ltb_spec 0 i) as [Hi|Hi]; [|lia].
      pose proof (Hq i ltac:(lia)) as Hqi.
      specialize (Hbelow (j - 1)%nat ltac:(lia)).
      rewrite Hbn in Hbelow by lia.
      replace (Z.of_nat (j - 1) + 1) with i in Hbelow by lia.
      apply Z.nle_gt. intros Hle.
      pose proof (StronglySorted_nth S HSs p (Z.to_nat (quantile_index i b n))
                    ltac:(lia)). lia. }
    assert (Hp2 : Z.of_nat p <= hi).
    { subst hi. destruct (Z.ltb_spec (i + 1) b) as [Hi|Hi]; [|lia].
      pose proof (Hq (i + 1) ltac:(lia)) as Hqi.
      specialize (Habove j ltac:(lia)).
      rewrite Hbn in Habove by lia. rewrite <- Ei in Habove.
      apply Z.nlt_ge. intros Hlt.
      pose proof (sorted_NoDup_strict S HSs HSn
                    (Z.to_nat (quantile_index (i + 1) b n)) p ltac:(lia)). lia. }
    apply in_map_iff. exists p. split; [exact Hpx|]. apply in_seq. lia. }
  assert (Hlen : (length (filter (fun x => Nat.eqb (count_lt bs x) j) data)
                  <= length (map (fun p => nth p S 0%Z)
                               (seq (Z.to_nat (lo + 1)) (Z.to_nat (hi - lo)))))%nat).
  { apply NoDup_incl_length; [apply NoDup_filter, Hnd | exact Hincl]. }
  rewrite length_map, length_seq in Hlen.
  assert (0 <= (n - 1) / b) by (apply Z.div_pos; lia).
  unfold len. lia.
Qed.

(** Ten distinct elements in three buckets: at most five in any bucket. *)
Lemma buckets_balanced_witness :
  sampler_ok window /\
  1 <= len [9; 8; 7; 6; 5; 4; 3; 2; 1; 0] <= 1000 /\
  NoDup [9; 8; 7; 6; 5; 4; 3; 2; 1; 0] /\
  exists l g',
    Pure.sort_nonempty window 3%nat [9; 8; 7; 6; 5; 4; 3; 2; 1; 0]
      = (Ok l, g') /\
    forall bucket, In bucket (Pure.buckets l) ->
      len bucket <= (len [9; 8; 7; 6; 5; 4; 3; 2; 1; 0] - 1)
                    / num_buckets (len [9; 8; 7; 6; 5; 4; 3; 2; 1; 0]) + 2.
Proof.
  assert (Hnd : NoDup [9; 8; 7; 6; 5; 4; 3; 2; 1; 0]).
  { repeat constructor; simpl; intuition lia. }
  split; [exact window_ok|].
  split; [vm_compute; split; discriminate|].
  split; [exact Hnd|].
  apply (buckets_balanced window 3%nat [9; 8; 7; 6; 5; 4; 3; 2; 1; 0]).
  - exact window_ok.
  - vm_compute; split; discriminate.
  - exact Hnd.
Defined.


(** ** Lists of up to three elements *)

(** X11.  A list of one, two or three elements gets a single bucket and
    no boundary: the bucket receives the whole input in its order, and the
    call amounts to [sorted(data)]. *)
Theorem tiny_input_single_bucket {rng : Type}
  (choose : rng -> nat -> nat -> list nat * rng) (g : rng) (data : list Z) :
  sampler_ok choose ->
  1 <= len data <= 3 ->
  exists l g', Pure.sort_nonempty choose g data = (Ok l, g') /\
    Pure.bucket_boundaries l = [] /\
    Pure.buckets l = [data] /\
    Pure.sorted_data l = sorted data.
Proof.
  intros Hc Hn.
  assert (Hn' : 1 <= len data <= PY_SSIZE_T_MAX) by (unfold PY_SSIZE_T_MAX; lia).
  destruct (sort_nonempty_ok choose Hc g data Hn')
    as (l & Hr & _ & _ & Hb & _ & Hk & Hd).
  assert (Hnb : num_buckets (len data) = 1).
  { rewrite num_buckets_isqrt by lia.
    assert (Z.sqrt (len data) < 2); [|pose proof (Z.sqrt_nonneg (len data)); lia].
    apply Z.sqrt_lt_square; lia. }
  rewrite Hnb in *.
  change (range 1 1) with (@nil Z) in Hb. cbn [map] in Hb.
  exists l. eexists. split; [exact Hr|]. split; [exact Hb|].
  assert (Hk' : Pure.buckets l = [data]).
  { rewrite Hk, Hb. change (Z.to_nat 1) with 1%nat. cbn [seq map].
    f_equal. clear. induction data as [|x data IH]; [reflexivity|].
    simpl in *. f_equal. exact IH. }
  split; [exact Hk'|]. rewrite Hd, Hk'. simpl. apply app_nil_r.
Qed.

(** Three elements. *)
Lemma tiny_input_single_bucket_witness :
  sampler_ok window /\
  1 <= len [3; 1; 2] <= 3 /\
  exists l g', Pure.sort_nonempty window 3%nat [3; 1; 2] = (Ok l, g') /\
    Pure.bucket_boundaries l = [] /\
    Pure.buckets l = [[3; 1; 2]] /\
    Pure.sorted_data l = sorted [3; 1; 2].
Proof.
  split; [exact window_ok|].
  split; [vm_compute; split; discriminate|].
  apply (tiny_input_single_bucket window 3%nat [3; 1; 2]).
  - exact window_ok.
  - vm_compute; split; discriminate.
Defined.
